(** * Ginga: a 128-bit ARX block cipher under a 256-bit key (src/ginga.go)

    A shallow embedding of the Go package [ginga] and the proofs of its
    invertibility, size-validation and adapter properties.

    Conventions of the embedding:
    - a [uint32] is a [Z] in [0, 2^32); every operation that can leave that
      range in Go (addition, subtraction, left shift, conversion from [int])
      has its wrap-around written out with [wrap32];
    - an [int] (round and word indices, rotation amounts) is a [Z]; the code
      only ever computes with indices below 16, far from any overflow;
    - a [[]byte] is a [list byte]; a [[4]uint32] or [[8]uint32] array is a
      [list Z] read with [aget] and written with [aset];
    - a function returning [([]byte, error)] returns a pair of the slice and
      an optional error message; a method that may panic returns [outcome]. *)

From Stdlib Require Import ZArith List Lia Bool.
From Stdlib.Strings Require Import String Byte.
Import ListNotations.
Local Open Scope Z_scope.

(** ** Machine words *)

Definition wrap32 (x : Z) : Z := x mod 2 ^ 32.

Definition is_u32 (x : Z) : Prop := 0 <= x < 2 ^ 32.

(** ** Go's standard library, as far as the package uses it *)

Module bits.

(** [math/bits.RotateLeft32]:
<<
    const n = 32
    s := uint(k) & (n - 1)
    return x<<s | x>>(n-s)
>>
    [uint(k) & 31] is the two's complement reading of [k], which is what
    [Z.land] computes on a negative [Z]. A shift by 32 of a [uint32]
    gives 0 in Go, as [Z.shiftr] does on a value below [2^32]. *)
Definition RotateLeft32 (x : Z) (k : Z) : Z :=
  let s := Z.land k 31 in
  Z.lor (wrap32 (Z.shiftl x s)) (Z.shiftr x (32 - s)).

End bits.

(** ** The ARX helpers (ginga.go, lines 16-33) *)

Definition BlockSize : Z := 16.
Definition Rounds : nat := 16.

Definition add32 (x y : Z) : Z := wrap32 (x + y).
Definition sub32 (x y : Z) : Z := wrap32 (x - y).
Definition rotl32 (x : Z) (n : Z) : Z := bits.RotateLeft32 x n.
Definition rotr32 (x : Z) (n : Z) : Z := bits.RotateLeft32 x (- n).

Definition confuse32 (x : Z) : Z :=
  let x := Z.lxor x 0xA5A5A5A5 in
  let x := wrap32 (x + 0x3C3C3C3C) in
  let x := rotl32 x 7 in
  x.

Definition deconfuse32 (x : Z) : Z :=
  let x := rotr32 x 7 in
  let x := wrap32 (x - 0x3C3C3C3C) in
  let x := Z.lxor x 0xA5A5A5A5 in
  x.

Definition round32 (x k : Z) (r : Z) : Z :=
  let x := add32 x k in
  let x := confuse32 x in
  let x := rotl32 x (Z.land (r + 3) 31) in
  let x := Z.lxor x k in
  let x := rotl32 x (Z.land (r + 5) 31) in
  x.

Definition invRound32 (x k : Z) (r : Z) : Z :=
  let x := rotr32 x (Z.land (r + 5) 31) in
  let x := Z.lxor x k in
  let x := rotr32 x (Z.land (r + 3) 31) in
  let x := deconfuse32 x in
  let x := sub32 x k in
  x.

(** ** Arrays, slices and loops *)

(** [a[i]] and [a[i] = v] on a fixed-size array of words. Every index the
    package computes is in range (a constant, a loop counter below the
    length, or a value masked with [&7] on an 8-word array). *)
Definition aget (a : list Z) (i : Z) : Z := nth (Z.to_nat i) a 0.

Fixpoint aset_nat (a : list Z) (i : nat) (v : Z) : list Z :=
  match a, i with
  | [], _ => []
  | _ :: t, O => v :: t
  | h :: t, S j => h :: aset_nat t j v
  end.

Definition aset (a : list Z) (i : Z) (v : Z) : list Z := aset_nat a (Z.to_nat i) v.

(** [for i := 0; i < n; i++ { s = body i s }] *)
Definition for_up {S : Type} (n : nat) (body : Z -> S -> S) (s : S) : S :=
  fold_left (fun s i => body (Z.of_nat i) s) (seq 0 n) s.

(** [for i := n - 1; i >= 0; i-- { s = body i s }] *)
Definition for_down {S : Type} (n : nat) (body : Z -> S -> S) (s : S) : S :=
  fold_left (fun s i => body (Z.of_nat i) s) (rev (seq 0 n)) s.

Definition len (b : list byte) : Z := Z.of_nat (List.length b).

(** [b[lo:hi]], and the effect on [b] of overwriting that window. *)
Definition slice (b : list byte) (lo hi : Z) : list byte :=
  firstn (Z.to_nat (hi - lo)) (skipn (Z.to_nat lo) b).

Definition slice_store (b : list byte) (lo hi : Z) (w : list byte) : list byte :=
  firstn (Z.to_nat lo) b ++ w ++ skipn (Z.to_nat hi) b.

(** The built-in [copy(dst, src)]: the first [min(len(dst), len(src))]
    bytes of [dst] are overwritten, the rest of [dst] stays. *)
Definition copy (dst src : list byte) : list byte :=
  firstn (List.length dst) src ++ skipn (List.length src) dst.

(** [uint32(b)] of a byte and [byte(v)] of a word (truncation). *)
Definition u8 (b : byte) : Z := Z.of_N (Byte.to_N b).

Definition byte_of (v : Z) : byte :=
  match Byte.of_N (Z.to_N (v mod 256)) with
  | Some b => b
  | None => x00
  end.

Module binary.

(** [encoding/binary.LittleEndian.Uint32]:
<<
    return uint32(b[0]) | uint32(b[1])<<8 | uint32(b[2])<<16 | uint32(b[3])<<24
>>
    The package only calls it on windows of exactly four bytes. *)
Definition Uint32 (b : list byte) : Z :=
  Z.lor (Z.lor (Z.lor (u8 (nth 0 b x00))
                      (Z.shiftl (u8 (nth 1 b x00)) 8))
               (Z.shiftl (u8 (nth 2 b x00)) 16))
        (Z.shiftl (u8 (nth 3 b x00)) 24).

(** [encoding/binary.LittleEndian.PutUint32]:
<<
    b[0] = byte(v); b[1] = byte(v >> 8); b[2] = byte(v >> 16); b[3] = byte(v >> 24)
>>
    given here as the new contents of the four-byte window. *)
Definition PutUint32 (v : Z) : list byte :=
  [byte_of v; byte_of (Z.shiftr v 8); byte_of (Z.shiftr v 16); byte_of (Z.shiftr v 24)].

End binary.

(** ** Key schedule and mixing layer (ginga.go, lines 53-70) *)

Definition subKey32 (k : list Z) (round i : Z) : Z :=
  let base := aget k (Z.land (i + round) 7) in
  rotl32 (Z.lxor base (wrap32 (i * 73 + round * 91))) (Z.land (round + i) 31).

Definition mixState32 (state : list Z) : list Z :=
  let state := aset state 0 (Z.lxor (aget state 0) (rotl32 (aget state 1) 5)) in
  let state := aset state 1 (Z.lxor (aget state 1) (rotl32 (aget state 2) 11)) in
  let state := aset state 2 (Z.lxor (aget state 2) (rotl32 (aget state 3) 17)) in
  let state := aset state 3 (Z.lxor (aget state 3) (rotl32 (aget state 0) 23)) in
  state.

Definition invMixState32 (state : list Z) : list Z :=
  let state := aset state 3 (Z.lxor (aget state 3) (rotl32 (aget state 0) 23)) in
  let state := aset state 2 (Z.lxor (aget state 2) (rotl32 (aget state 3) 17)) in
  let state := aset state 1 (Z.lxor (aget state 1) (rotl32 (aget state 2) 11)) in
  let state := aset state 0 (Z.lxor (aget state 0) (rotl32 (aget state 1) 5)) in
  state.

(** ** Encrypt and Decrypt (ginga.go, lines 74-138) *)

Definition error : Type := string.

(** The loop that reads [n] little-endian words from a byte slice. *)
Definition load_words (n : nat) (b : list byte) : list Z :=
  for_up n (fun i w => aset w i (binary.Uint32 (slice b (i * 4) ((i + 1) * 4))))
         (repeat 0 n).

(** The loop that writes the four words of the state into [out]. *)
Definition store_words (c : list Z) (out : list byte) : list byte :=
  for_up 4 (fun i out =>
              slice_store out (i * 4) ((i + 1) * 4) (binary.PutUint32 (aget c i)))
         out.

(** One pass of the inner loop of [Encrypt]: [c[i] = round32(c[i], subk, r)]. *)
Definition enc_words (k : list Z) (r : Z) (c : list Z) : list Z :=
  for_up 4 (fun i c =>
              let subk := subKey32 k r i in
              aset c i (round32 (aget c i) subk r))
         c.

(** One pass of the inner loop of [Decrypt]: [p[i] = invRound32(p[i], subk, r)]. *)
Definition dec_words (k : list Z) (r : Z) (p : list Z) : list Z :=
  for_up 4 (fun i p =>
              let subk := subKey32 k r i in
              aset p i (invRound32 (aget p i) subk r))
         p.

Definition enc_rounds (k : list Z) (c : list Z) : list Z :=
  for_up Rounds (fun r c => mixState32 (enc_words k r c)) c.

Definition dec_rounds (k : list Z) (p : list Z) : list Z :=
  for_down Rounds (fun r p => dec_words k r (invMixState32 p)) p.

Definition Encrypt (plain key : list byte) : list byte * option error :=
  if negb (len plain =? BlockSize) then
    ([], Some "ginga: plaintext must be 16 bytes"%string)
  else if negb (len key =? 32) then
    ([], Some "ginga: key must be 32 bytes (256 bits)"%string)
  else
    let c := load_words 4 plain in
    let k := load_words 8 key in
    let c := enc_rounds k c in
    let out := repeat x00 (Z.to_nat BlockSize) in
    let out := store_words c out in
    (out, None).

Definition Decrypt (ciphertext key : list byte) : list byte * option error :=
  if negb (len ciphertext =? BlockSize) then
    ([], Some "ginga: ciphertext must be 16 bytes"%string)
  else if negb (len key =? 32) then
    ([], Some "ginga: key must be 32 bytes (256 bits)"%string)
  else
    let p := load_words 4 ciphertext in
    let k := load_words 8 key in
    let p := dec_rounds k p in
    let out := repeat x00 (Z.to_nat BlockSize) in
    let out := store_words p out in
    (out, None).

(** ** The [cipher.Block] adapter (ginga.go, lines 142-181)

    A method gives the new contents of [dst]. The source computes [out]
    from [src[:16]] before [copy(dst, out)] runs, so the result is the same
    whether or not [dst] and [src] overlap. *)

Record gingaCipher : Type := { key : list byte }.

(** What a call of a method without an error result does: it returns (here
    with the new contents of [dst]) or it panics with a message. *)
Inductive outcome : Type :=
| Returns (dst : list byte)
| Panics (msg : string).

Definition NewCipher (k : list byte) : option gingaCipher * option error :=
  if negb (len k =? 32) then
    (None, Some "ginga: invalid key size (must be 32 bytes)"%string)
  else
    (Some {| key := [] ++ k |}, None).

Module gingaCipher.

Definition Encrypt (c : gingaCipher) (dst src : list byte) : outcome :=
  if (len src <? BlockSize) || (len dst <? BlockSize) then
    Panics "ginga: input not full block"
  else
    let '(out, err) := Encrypt (slice src 0 BlockSize) (key c) in
    match err with
    | Some e => Panics ("ginga: encryption failed: " ++ e)%string
    | None => Returns (copy dst out)
    end.

Definition Decrypt (c : gingaCipher) (dst src : list byte) : outcome :=
  if (len src <? BlockSize) || (len dst <? BlockSize) then
    Panics "ginga: input not full block"
  else
    let '(out, err) := Decrypt (slice src 0 BlockSize) (key c) in
    match err with
    | Some e => Panics ("ginga: decryption failed: " ++ e)%string
    | None => Returns (copy dst out)
    end.

Definition BlockSize (c : gingaCipher) : Z := BlockSize.

End gingaCipher.

(** ** Vocabulary of the statements

    Well-formed states, the error values of the package by name, and the two
    contracts the functional interface and the cipher object are held to. *)

(** A state is four words, each within 32 bits. *)
Definition state_ok (s : list Z) : Prop := List.length s = 4%nat /\ Forall is_u32 s.

(** The messages of the errors and of the panic, as the source spells them. *)
Definition errPlaintext : error := "ginga: plaintext must be 16 bytes"%string.
Definition errCiphertext : error := "ginga: ciphertext must be 16 bytes"%string.
Definition errKey : error := "ginga: key must be 32 bytes (256 bits)"%string.
Definition errBlock : string := "ginga: input not full block"%string.

(** The size contract of one of the two functions, [msg] being the message
    it gives for a block of the wrong length. *)
Definition size_contract (f : list byte -> list byte -> list byte * option error)
    (msg : error) (block k : list byte) : Prop :=
  (snd (f block k) <> None <-> List.length block <> 16%nat \/ List.length k <> 32%nat) /\
  (List.length block <> 16%nat -> f block k = ([], Some msg)) /\
  (List.length block = 16%nat -> List.length k <> 32%nat -> f block k = ([], Some errKey)) /\
  (List.length block = 16%nat -> List.length k = 32%nat ->
   exists out, f block k = (out, None) /\ List.length out = 16%nat) /\
  msg <> errKey.

(** A method agrees with a function of the package when, on buffers of at
    least one block, it leaves in [dst] the function's output for the first
    sixteen bytes of [src] followed by the untouched rest of [dst]. *)
Definition method_agrees
    (m : gingaCipher -> list byte -> list byte -> outcome)
    (f : list byte -> list byte -> list byte * option error)
    (c : gingaCipher) (k : list byte) : Prop :=
  forall dst src,
    16 <= len src -> 16 <= len dst ->
    exists out,
      f (firstn 16 src) k = (out, None) /\ List.length out = 16%nat /\
      m c dst src = Returns (out ++ skipn 16 dst).

(** [k] with bit [n mod 8] of byte [n / 8] flipped: a key one bit away. *)
Fixpoint flip_bit (k : list byte) (n : nat) : list byte :=
  match k with
  | [] => []
  | b :: t =>
      if Nat.ltb n 8 then byte_of (Z.lxor (u8 b) (2 ^ Z.of_nat n)) :: t
      else b :: flip_bit t (n - 8)
  end.

Definition bytes_eqb (a b : list byte) : bool :=
  Nat.eqb (List.length a) (List.length b) &&
  forallb (fun p => Byte.eqb (fst p) (snd p)) (combine a b).

(** The word-wise XOR of two states. *)
Definition xor_state (s t : list Z) : list Z :=
  map (fun p => Z.lxor (fst p) (snd p)) (combine s t).

(** The key array [k] with bit [b] of word [j] flipped. *)
Definition flip_word_bit (k : list Z) (j b : Z) : list Z :=
  aset k j (Z.lxor (aget k j) (2 ^ b)).

(** [a] and [b] agree on the bits below [p] and differ at bit [p]. *)
Definition first_diff_at (a b p : Z) : Prop :=
  a mod 2 ^ p = b mod 2 ^ p /\ a mod 2 ^ (p + 1) <> b mod 2 ^ (p + 1).

(** ** The key schedule as the specification words it

    The reference the code is compared with: circular rotation given by
    arithmetic on the 32-bit value, indices and rotation amounts reduced
    with [mod], the per-position constant truncated to 32 bits. *)

Definition rotateLeft_ref (x : Z) (n : Z) : Z :=
  (x * 2 ^ n) mod 2 ^ 32 + x / 2 ^ (32 - n).

Definition subkey_ref (k : list Z) (r i : Z) : Z :=
  let base := nth (Z.to_nat ((i + r) mod 8)) k 0 in
  rotateLeft_ref (Z.lxor base ((i * 73 + r * 91) mod 2 ^ 32)) ((r + i) mod 32).

(** ** Range and bit lemmas for 32-bit words *)

Lemma wrap32_range (x : Z) : is_u32 (wrap32 x).
Proof. unfold is_u32, wrap32. apply Z.mod_pos_bound. lia. Qed.

Lemma wrap32_id (x : Z) : is_u32 x -> wrap32 x = x.
Proof. unfold is_u32, wrap32. intros H. apply Z.mod_small. exact H. Qed.

Lemma u32_high_bits (x : Z) (i : Z) : is_u32 x -> 32 <= i -> Z.testbit x i = false.
Proof.
  unfold is_u32. intros [Hlo Hhi] Hi.
  destruct (Z.eq_dec x 0) as [-> | Hnz].
  - apply Z.bits_0.
  - apply Z.bits_above_log2; [lia |].
    assert (Z.log2 x < 32) by (apply Z.log2_lt_pow2; lia). lia.
Qed.

Lemma u32_of_bits (x : Z) :
  0 <= x -> (forall i, 32 <= i -> Z.testbit x i = false) -> is_u32 x.
Proof.
  intros Hlo Hbits. split; [exact Hlo |].
  destruct (Z.ltb_spec x (2 ^ 32)) as [Hlt | Hge]; [exact Hlt | exfalso].
  assert (Hpos : 0 < x) by lia.
  pose proof (Z.bit_log2 x Hpos) as Hb.
  assert (32 <= Z.log2 x) by (apply Z.log2_le_pow2; lia).
  rewrite Hbits in Hb by lia. discriminate.
Qed.

Lemma lor_u32 (x y : Z) : is_u32 x -> is_u32 y -> is_u32 (Z.lor x y).
Proof.
  intros Hx Hy. apply u32_of_bits.
  - apply Z.lor_nonneg. unfold is_u32 in *. lia.
  - intros i Hi. rewrite Z.lor_spec, !u32_high_bits by assumption. reflexivity.
Qed.

Lemma lxor_u32 (x y : Z) : is_u32 x -> is_u32 y -> is_u32 (Z.lxor x y).
Proof.
  intros Hx Hy. apply u32_of_bits.
  - apply Z.lxor_nonneg. unfold is_u32 in *. lia.
  - intros i Hi. rewrite Z.lxor_spec, !u32_high_bits by assumption. reflexivity.
Qed.

Lemma lxor_cancel_r (x y : Z) : Z.lxor (Z.lxor x y) y = x.
Proof. rewrite Z.lxor_assoc, Z.lxor_nilpotent, Z.lxor_0_r. reflexivity. Qed.

Lemma land_31 (k : Z) : Z.land k 31 = k mod 32.
Proof. change 31 with (Z.ones 5). rewrite Z.land_ones by lia. reflexivity. Qed.

Lemma land_7 (k : Z) : Z.land k 7 = k mod 8.
Proof. change 7 with (Z.ones 3). rewrite Z.land_ones by lia. reflexivity. Qed.

Lemma wrap32_testbit (x i : Z) :
  Z.testbit (wrap32 x) i = if i <? 32 then Z.testbit x i else false.
Proof.
  unfold wrap32. destruct (Z.ltb_spec i 32) as [Hlt | Hge].
  - destruct (Z.ltb_spec i 0) as [Hneg | Hpos].
    + rewrite !Z.testbit_neg_r by lia. reflexivity.
    + apply Z.mod_pow2_bits_low. lia.
  - apply Z.mod_pow2_bits_high. lia.
Qed.

(** Bit [i] of a rotation by [k] is bit [(i - k) mod 32] of the operand:
    the rotation is circular and only [k mod 32] matters. *)
Lemma RotateLeft32_testbit (x k i : Z) :
  is_u32 x -> 0 <= i < 32 ->
  Z.testbit (bits.RotateLeft32 x k) i = Z.testbit x ((i - k) mod 32).
Proof.
  intros Hx Hi. unfold bits.RotateLeft32. cbv zeta.
  rewrite land_31.
  assert (Hs : 0 <= k mod 32 < 32) by (apply Z.mod_pos_bound; lia).
  set (s := k mod 32) in *.
  assert (Hmod : (i - k) mod 32 = (i - s) mod 32).
  { unfold s. rewrite Zminus_mod_idemp_r. reflexivity. }
  rewrite Hmod.
  rewrite Z.lor_spec, wrap32_testbit, Z.shiftl_spec, Z.shiftr_spec by lia.
  replace (i <? 32) with true by (symmetry; apply Z.ltb_lt; lia).
  destruct (Z.ltb_spec i s) as [Hlt | Hge].
  - rewrite (Z.testbit_neg_r x (i - s)) by lia. cbn [orb].
    f_equal. symmetry.
    rewrite <- (Z.mod_add _ 1) by lia. rewrite Z.mod_small; lia.
  - rewrite (u32_high_bits x (i + (32 - s))) by (assumption || lia).
    rewrite orb_false_r. f_equal. symmetry. apply Z.mod_small. lia.
Qed.

Lemma RotateLeft32_u32 (x k : Z) : is_u32 x -> is_u32 (bits.RotateLeft32 x k).
Proof.
  intros Hx. unfold bits.RotateLeft32. cbv zeta. apply lor_u32.
  - apply wrap32_range.
  - rewrite land_31.
    assert (Hs : 0 <= k mod 32 < 32) by (apply Z.mod_pos_bound; lia).
    unfold is_u32 in *. rewrite Z.shiftr_div_pow2 by lia. split.
    + apply Z.div_pos; [lia | apply Z.pow_pos_nonneg; lia].
    + apply Z.le_lt_trans with x; [| lia].
      apply Z.div_le_upper_bound; [apply Z.pow_pos_nonneg; lia |].
      assert (0 < 2 ^ (32 - k mod 32)) by (apply Z.pow_pos_nonneg; lia).
      nia.
Qed.

Lemma u32_ext (x y : Z) :
  is_u32 x -> is_u32 y ->
  (forall i, 0 <= i < 32 -> Z.testbit x i = Z.testbit y i) -> x = y.
Proof.
  intros Hx Hy Hbits. apply Z.bits_inj'. intros i Hi.
  destruct (Z.ltb_spec i 32) as [Hlt | Hge].
  - apply Hbits. lia.
  - rewrite !u32_high_bits by assumption. reflexivity.
Qed.

(** Two rotations whose amounts add up to a multiple of 32 cancel. *)
Lemma RotateLeft32_cancel (x k k' : Z) :
  is_u32 x -> (k + k') mod 32 = 0 ->
  bits.RotateLeft32 (bits.RotateLeft32 x k) k' = x.
Proof.
  intros Hx Hk. apply u32_ext.
  - apply RotateLeft32_u32, RotateLeft32_u32, Hx.
  - exact Hx.
  - intros i Hi. rewrite RotateLeft32_testbit by (try apply RotateLeft32_u32; assumption).
    rewrite RotateLeft32_testbit by (assumption || (apply Z.mod_pos_bound; lia)).
    f_equal. rewrite Zminus_mod_idemp_l.
    replace (i - k' - k) with (i - (k + k')) by lia.
    rewrite Zminus_mod, Hk, Z.sub_0_r, Z.mod_mod by lia. apply Z.mod_small. exact Hi.
Qed.

Lemma rotl32_u32 (x n : Z) : is_u32 x -> is_u32 (rotl32 x n).
Proof. apply RotateLeft32_u32. Qed.

Lemma rotr32_u32 (x n : Z) : is_u32 x -> is_u32 (rotr32 x n).
Proof. apply RotateLeft32_u32. Qed.

Lemma rotr32_rotl32 (x n : Z) : is_u32 x -> rotr32 (rotl32 x n) n = x.
Proof.
  intros Hx. unfold rotr32, rotl32. apply RotateLeft32_cancel; [exact Hx |].
  replace (n + - n) with 0 by lia. reflexivity.
Qed.

Lemma rotl32_rotr32 (x n : Z) : is_u32 x -> rotl32 (rotr32 x n) n = x.
Proof.
  intros Hx. unfold rotr32, rotl32. apply RotateLeft32_cancel; [exact Hx |].
  replace (- n + n) with 0 by lia. reflexivity.
Qed.

Lemma wrap32_add_sub (x c : Z) : is_u32 x -> wrap32 (wrap32 (x + c) - c) = x.
Proof.
  intros Hx. unfold wrap32. rewrite Zminus_mod_idemp_l.
  replace (x + c - c) with x by lia. apply Z.mod_small. exact Hx.
Qed.

Lemma wrap32_sub_add (x c : Z) : is_u32 x -> wrap32 (wrap32 (x - c) + c) = x.
Proof.
  intros Hx. unfold wrap32. rewrite Zplus_mod_idemp_l.
  replace (x - c + c) with x by lia. apply Z.mod_small. exact Hx.
Qed.

Lemma C1_u32 : is_u32 0xA5A5A5A5.
Proof. unfold is_u32. lia. Qed.

Lemma confuse32_u32 (x : Z) : is_u32 x -> is_u32 (confuse32 x).
Proof. intros Hx. unfold confuse32. apply rotl32_u32, wrap32_range. Qed.

Lemma deconfuse32_u32 (x : Z) : is_u32 x -> is_u32 (deconfuse32 x).
Proof.
  intros Hx. unfold deconfuse32. apply lxor_u32; [apply wrap32_range | apply C1_u32].
Qed.

(** The three steps of [confuse32] on a 32-bit value, undone one by one. *)
Lemma deconfuse32_steps (x : Z) :
  is_u32 x ->
  rotr32 (rotl32 (wrap32 (Z.lxor x 0xA5A5A5A5 + 0x3C3C3C3C)) 7) 7
  = wrap32 (Z.lxor x 0xA5A5A5A5 + 0x3C3C3C3C) /\
  wrap32 (wrap32 (Z.lxor x 0xA5A5A5A5 + 0x3C3C3C3C) - 0x3C3C3C3C) = Z.lxor x 0xA5A5A5A5 /\
  Z.lxor (Z.lxor x 0xA5A5A5A5) 0xA5A5A5A5 = x.
Proof.
  intros Hx. split; [| split].
  - apply rotr32_rotl32, wrap32_range.
  - apply wrap32_add_sub, lxor_u32; [exact Hx | apply C1_u32].
  - apply lxor_cancel_r.
Qed.

Lemma deconfuse32_undoes (x : Z) : is_u32 x -> deconfuse32 (confuse32 x) = x.
Proof.
  intros Hx. destruct (deconfuse32_steps x Hx) as (Hrot & Hadd & Hxor).
  unfold deconfuse32, confuse32. cbv zeta. rewrite Hrot, Hadd. exact Hxor.
Qed.

(** C4. For every 32-bit value [x], [deconfuse32 (confuse32 x) = x]; the
    statement mentions no key and no round index. *)
Theorem deconfuse32_confuse32 (x : Z) : is_u32 x -> deconfuse32 (confuse32 x) = x.
Proof.
  intros Hx. unfold deconfuse32, confuse32. cbv zeta.
  rewrite rotr32_rotl32 by apply wrap32_range.
  rewrite wrap32_add_sub by (apply lxor_u32; [exact Hx | apply C1_u32]).
  apply lxor_cancel_r.
Qed.

Lemma deconfuse32_confuse32_witness :
  is_u32 0xDEADBEEF /\ deconfuse32 (confuse32 0xDEADBEEF) = 0xDEADBEEF.
Proof.
  assert (H : is_u32 0xDEADBEEF) by (unfold is_u32; lia).
  split; [exact H | apply (deconfuse32_confuse32 0xDEADBEEF H)].
Defined.

(** ** The round function and its inverse *)

Lemma add32_u32 (x y : Z) : is_u32 (add32 x y).
Proof. apply wrap32_range. Qed.

Lemma sub32_u32 (x y : Z) : is_u32 (sub32 x y).
Proof. apply wrap32_range. Qed.

Lemma round32_u32 (x k r : Z) : is_u32 k -> is_u32 (round32 x k r).
Proof.
  intros Hk. unfold round32. cbv zeta.
  apply rotl32_u32, lxor_u32; [| exact Hk].
  apply rotl32_u32, confuse32_u32, add32_u32.
Qed.

Lemma invRound32_u32 (x k r : Z) : is_u32 (invRound32 x k r).
Proof. unfold invRound32. cbv zeta. apply sub32_u32. Qed.

Lemma confuse32_deconfuse32 (x : Z) : is_u32 x -> confuse32 (deconfuse32 x) = x.
Proof.
  intros Hx. unfold deconfuse32, confuse32. cbv zeta.
  rewrite lxor_cancel_r.
  rewrite wrap32_sub_add by (apply rotr32_u32; exact Hx).
  apply rotl32_rotr32. exact Hx.
Qed.

Lemma invRound32_round32_any (x k r : Z) :
  is_u32 x -> is_u32 k -> invRound32 (round32 x k r) k r = x.
Proof.
  intros Hx Hk. unfold invRound32, round32. cbv zeta.
  rewrite rotr32_rotl32
    by (apply lxor_u32; [apply rotl32_u32, confuse32_u32, add32_u32 | exact Hk]).
  rewrite lxor_cancel_r.
  rewrite rotr32_rotl32 by apply confuse32_u32, add32_u32.
  rewrite deconfuse32_undoes by apply add32_u32.
  unfold sub32, add32. apply wrap32_add_sub. exact Hx.
Qed.

Lemma round32_invRound32_any (y k r : Z) :
  is_u32 y -> is_u32 k -> round32 (invRound32 y k r) k r = y.
Proof.
  intros Hy Hk. unfold invRound32, round32. cbv zeta.
  assert (H1 : is_u32 (rotr32 y (Z.land (r + 5) 31))) by (apply rotr32_u32; exact Hy).
  assert (H2 : is_u32 (Z.lxor (rotr32 y (Z.land (r + 5) 31)) k))
    by (apply lxor_u32; assumption).
  assert (H3 : is_u32 (rotr32 (Z.lxor (rotr32 y (Z.land (r + 5) 31)) k) (Z.land (r + 3) 31)))
    by (apply rotr32_u32; exact H2).
  unfold sub32, add32.
  rewrite wrap32_sub_add by (apply deconfuse32_u32; exact H3).
  rewrite confuse32_deconfuse32 by exact H3.
  rewrite rotl32_rotr32 by exact H2.
  rewrite lxor_cancel_r.
  apply rotl32_rotr32. exact Hy.
Qed.

(** C2. For every 32-bit word [x], every 32-bit subkey [k] and every round
    index [r] in [0,16), the inverse round function undoes the round
    function: [invRound32 (round32 x k r) k r = x]. *)
Theorem invRound32_round32 (x k r : Z) :
  is_u32 x -> is_u32 k -> 0 <= r < 16 -> invRound32 (round32 x k r) k r = x.
Proof.
  intros Hx Hk Hr. unfold invRound32, round32. cbv zeta.
  assert (Hsum : is_u32 (add32 x k)) by apply add32_u32.
  assert (Hconf : is_u32 (confuse32 (add32 x k))) by (apply confuse32_u32, Hsum).
  assert (Hrot : is_u32 (rotl32 (confuse32 (add32 x k)) (Z.land (r + 3) 31)))
    by (apply rotl32_u32, Hconf).
  rewrite rotr32_rotl32 by (apply lxor_u32; assumption).
  rewrite lxor_cancel_r, rotr32_rotl32 by exact Hconf.
  rewrite deconfuse32_undoes by exact Hsum.
  unfold sub32, add32. apply wrap32_add_sub, Hx.
Qed.

Lemma invRound32_round32_witness :
  is_u32 0x01234567 /\ is_u32 0x89ABCDEF /\ 0 <= 11 < 16 /\
  invRound32 (round32 0x01234567 0x89ABCDEF 11) 0x89ABCDEF 11 = 0x01234567.
Proof.
  assert (Hx : is_u32 0x01234567) by (unfold is_u32; lia).
  assert (Hk : is_u32 0x89ABCDEF) by (unfold is_u32; lia).
  assert (Hr : 0 <= 11 < 16) by lia.
  split; [exact Hx | split; [exact Hk | split; [exact Hr |]]].
  apply (invRound32_round32 0x01234567 0x89ABCDEF 11 Hx Hk Hr).
Defined.

(** ** The mixing layer *)

Lemma list4_inv {A : Type} (s : list A) :
  List.length s = 4%nat -> exists a b c d, s = [a; b; c; d].
Proof.
  intros H.
  destruct s as [| a [| b [| c [| d [| e s]]]]]; try discriminate.
  exists a, b, c, d. reflexivity.
Qed.

Lemma mixState32_4 (a b c d : Z) :
  mixState32 [a; b; c; d] =
  let a' := Z.lxor a (rotl32 b 5) in
  [a'; Z.lxor b (rotl32 c 11); Z.lxor c (rotl32 d 17); Z.lxor d (rotl32 a' 23)].
Proof. reflexivity. Qed.

Lemma invMixState32_4 (a b c d : Z) :
  invMixState32 [a; b; c; d] =
  let d' := Z.lxor d (rotl32 a 23) in
  let c' := Z.lxor c (rotl32 d' 17) in
  let b' := Z.lxor b (rotl32 c' 11) in
  [Z.lxor a (rotl32 b' 5); b'; c'; d'].
Proof. reflexivity. Qed.

Lemma invMixState32_undoes (s : list Z) :
  List.length s = 4%nat -> invMixState32 (mixState32 s) = s.
Proof.
  intros Hlen. destruct (list4_inv s Hlen) as (a & b & c & d & ->).
  rewrite mixState32_4. cbv zeta. rewrite invMixState32_4. cbv zeta.
  rewrite !lxor_cancel_r. reflexivity.
Qed.

(** C3. For every 4-word state [s], the inverse mix layer applied after the
    mix layer restores [s]; both are the sequential in-place updates of the
    source, later words reading the already-updated earlier ones. *)
Theorem invMixState32_mixState32 (s : list Z) :
  List.length s = 4%nat -> invMixState32 (mixState32 s) = s.
Proof.
  intros Hlen. destruct (list4_inv s Hlen) as (a & b & c & d & ->).
  (* forward: words 0..3 in order, word 3 reading the new word 0 *)
  rewrite mixState32_4. cbv zeta.
  set (a' := Z.lxor a (rotl32 b 5)).
  (* backward: words 3..0 in order, each XOR term recomputed from the value
     it had when the forward step used it *)
  rewrite invMixState32_4. cbv zeta.
  assert (Hd : Z.lxor (Z.lxor d (rotl32 a' 23)) (rotl32 a' 23) = d) by apply lxor_cancel_r.
  rewrite Hd.
  assert (Hc : Z.lxor (Z.lxor c (rotl32 d 17)) (rotl32 d 17) = c) by apply lxor_cancel_r.
  rewrite Hc.
  assert (Hb : Z.lxor (Z.lxor b (rotl32 c 11)) (rotl32 c 11) = b) by apply lxor_cancel_r.
  rewrite Hb. unfold a'. rewrite lxor_cancel_r. reflexivity.
Qed.

Lemma invMixState32_mixState32_witness :
  List.length [1; 2; 3; 4] = 4%nat /\
  invMixState32 (mixState32 [1; 2; 3; 4]) = [1; 2; 3; 4].
Proof.
  split; [reflexivity | apply (invMixState32_mixState32 [1; 2; 3; 4]); reflexivity].
Defined.

Lemma mixState32_invMixState32 (s : list Z) :
  List.length s = 4%nat -> mixState32 (invMixState32 s) = s.
Proof.
  intros Hlen. destruct (list4_inv s Hlen) as (a & b & c & d & ->).
  rewrite invMixState32_4. cbv zeta. rewrite mixState32_4. cbv zeta.
  rewrite !lxor_cancel_r. reflexivity.
Qed.

(** ** Bytes and little-endian words *)

Lemma u8_range (b : byte) : 0 <= u8 b < 256.
Proof.
  unfold u8. pose proof (Byte.to_N_bounded b) as H. lia.
Qed.

Lemma u8_bits (b : byte) (i : Z) : 8 <= i -> Z.testbit (u8 b) i = false.
Proof.
  intros Hi. pose proof (u8_range b) as [Hlo Hhi].
  destruct (Z.eq_dec (u8 b) 0) as [-> | Hnz]; [apply Z.bits_0 |].
  apply Z.bits_above_log2; [lia |].
  assert (Z.log2 (u8 b) < 8) by (apply Z.log2_lt_pow2; lia). lia.
Qed.

Lemma u8_byte_of (v : Z) : u8 (byte_of v) = v mod 256.
Proof.
  unfold u8, byte_of.
  assert (Hr : 0 <= v mod 256 < 256) by (apply Z.mod_pos_bound; lia).
  destruct (Byte.of_N (Z.to_N (v mod 256))) as [b |] eqn:Hb.
  - apply Byte.to_of_N in Hb. rewrite Hb. lia.
  - apply Byte.of_N_None_iff in Hb. lia.
Qed.

Lemma byte_of_u8 (b : byte) : byte_of (u8 b) = b.
Proof.
  unfold byte_of. rewrite Z.mod_small by apply u8_range.
  unfold u8. rewrite N2Z.id, Byte.of_to_N. reflexivity.
Qed.

Lemma byte_of_eq (v : Z) (b : byte) : v mod 256 = u8 b -> byte_of v = b.
Proof.
  intros H. rewrite <- (byte_of_u8 b). unfold byte_of at 1.
  rewrite H. unfold byte_of. rewrite (Z.mod_small (u8 b)) by apply u8_range.
  reflexivity.
Qed.

(** Bit [i] of the word read from four bytes is a bit of byte [i / 8]. *)
Lemma Uint32_testbit (a b c d : byte) (i : Z) :
  0 <= i ->
  Z.testbit (binary.Uint32 [a; b; c; d]) i =
  if i <? 8 then Z.testbit (u8 a) i
  else if i <? 16 then Z.testbit (u8 b) (i - 8)
  else if i <? 24 then Z.testbit (u8 c) (i - 16)
  else Z.testbit (u8 d) (i - 24).
Proof.
  intros Hi. unfold binary.Uint32. cbn [nth].
  rewrite !Z.lor_spec, !Z.shiftl_spec by exact Hi.
  destruct (Z.ltb_spec i 8); [| destruct (Z.ltb_spec i 16); [| destruct (Z.ltb_spec i 24)]].
  - rewrite (Z.testbit_neg_r _ (i - 8)), (Z.testbit_neg_r _ (i - 16)),
      (Z.testbit_neg_r _ (i - 24)) by lia.
    rewrite !orb_false_r. reflexivity.
  - rewrite (u8_bits a), (Z.testbit_neg_r _ (i - 16)), (Z.testbit_neg_r _ (i - 24)) by lia.
    rewrite !orb_false_r. reflexivity.
  - rewrite (u8_bits a), (u8_bits b), (Z.testbit_neg_r _ (i - 24)) by lia.
    rewrite !orb_false_r. reflexivity.
  - rewrite (u8_bits a), (u8_bits b), (u8_bits c) by lia. reflexivity.
Qed.

Lemma Uint32_u32 (b : list byte) : is_u32 (binary.Uint32 b).
Proof.
  assert (Hsh : forall (x : byte) n, 0 <= n <= 24 -> is_u32 (Z.shiftl (u8 x) n)).
  { intros x n Hn. pose proof (u8_range x) as Hx. unfold is_u32.
    rewrite Z.shiftl_mul_pow2 by lia.
    assert (0 < 2 ^ n) by (apply Z.pow_pos_nonneg; lia).
    assert (2 ^ n <= 2 ^ 24) by (apply Z.pow_le_mono_r; lia).
    change (2 ^ 32) with (256 * 2 ^ 24). nia. }
  unfold binary.Uint32. repeat apply lor_u32; try (apply Hsh; lia).
  pose proof (u8_range (nth 0 b x00)). unfold is_u32. lia.
Qed.

Lemma PutUint32_Uint32 (a b c d : byte) :
  binary.PutUint32 (binary.Uint32 [a; b; c; d]) = [a; b; c; d].
Proof.
  unfold binary.PutUint32.
  assert (Hbyte : forall n x, 0 <= n ->
            (forall i, 0 <= i < 8 ->
               Z.testbit (binary.Uint32 [a; b; c; d]) (i + n) = Z.testbit (u8 x) i) ->
            byte_of (Z.shiftr (binary.Uint32 [a; b; c; d]) n) = x).
  { intros n x Hn Hbits. apply byte_of_eq. apply Z.bits_inj'. intros i Hi.
    change 256 with (2 ^ 8). rewrite Z.testbit_mod_pow2 by lia.
    destruct (Z.ltb_spec i 8) as [Hlt | Hge]; cbn [andb].
    - rewrite Z.shiftr_spec by exact Hi. apply Hbits. lia.
    - rewrite u8_bits by exact Hge. reflexivity. }
  rewrite <- (Z.shiftr_0_r (binary.Uint32 [a; b; c; d])) at 1.
  rewrite (Hbyte 0 a), (Hbyte 8 b), (Hbyte 16 c), (Hbyte 24 d); try reflexivity; try lia;
    intros i Hi; rewrite Uint32_testbit by lia.
  - replace (i + 24 <? 8) with false by (symmetry; apply Z.ltb_ge; lia).
    replace (i + 24 <? 16) with false by (symmetry; apply Z.ltb_ge; lia).
    replace (i + 24 <? 24) with false by (symmetry; apply Z.ltb_ge; lia).
    f_equal. lia.
  - replace (i + 16 <? 8) with false by (symmetry; apply Z.ltb_ge; lia).
    replace (i + 16 <? 16) with false by (symmetry; apply Z.ltb_ge; lia).
    replace (i + 16 <? 24) with true by (symmetry; apply Z.ltb_lt; lia).
    f_equal. lia.
  - replace (i + 8 <? 8) with false by (symmetry; apply Z.ltb_ge; lia).
    replace (i + 8 <? 16) with true by (symmetry; apply Z.ltb_lt; lia).
    f_equal. lia.
  - replace (i + 0 <? 8) with true by (symmetry; apply Z.ltb_lt; lia).
    f_equal. lia.
Qed.

Lemma Uint32_PutUint32 (v : Z) : is_u32 v -> binary.Uint32 (binary.PutUint32 v) = v.
Proof.
  intros Hv. apply u32_ext; [apply Uint32_u32 | exact Hv |].
  intros i Hi. unfold binary.PutUint32. rewrite Uint32_testbit by lia.
  rewrite !u8_byte_of. change 256 with (2 ^ 8).
  rewrite !Z.testbit_mod_pow2 by lia.
  destruct (Z.ltb_spec i 8); [| destruct (Z.ltb_spec i 16); [| destruct (Z.ltb_spec i 24)]].
  - replace (i <? 8) with true by (symmetry; apply Z.ltb_lt; lia). reflexivity.
  - replace (i - 8 <? 8) with true by (symmetry; apply Z.ltb_lt; lia).
    cbn [andb]. rewrite Z.shiftr_spec by lia. f_equal. lia.
  - replace (i - 16 <? 8) with true by (symmetry; apply Z.ltb_lt; lia).
    cbn [andb]. rewrite Z.shiftr_spec by lia. f_equal. lia.
  - replace (i - 24 <? 8) with true by (symmetry; apply Z.ltb_lt; lia).
    cbn [andb]. rewrite Z.shiftr_spec by lia. f_equal. lia.
Qed.

(** ** Loops *)

Lemma for_up_S {S : Type} (n : nat) (body : Z -> S -> S) (s : S) :
  for_up (Datatypes.S n) body s = body (Z.of_nat n) (for_up n body s).
Proof.
  unfold for_up. rewrite seq_S, fold_left_app. reflexivity.
Qed.

Lemma for_down_S {S : Type} (n : nat) (body : Z -> S -> S) (s : S) :
  for_down (Datatypes.S n) body s = for_down n body (body (Z.of_nat n) s).
Proof.
  unfold for_down. rewrite seq_S, rev_app_distr. reflexivity.
Qed.

Section LoopInverse.

Context {S : Type}.
Variable P : S -> Prop.
Variables f g : Z -> S -> S.
Hypothesis f_keeps : forall i s, P s -> P (f i s).
Hypothesis g_undoes_f : forall i s, P s -> g i (f i s) = s.

Lemma for_up_keeps (n : nat) (s : S) : P s -> P (for_up n f s).
Proof.
  intros Hs. induction n as [| n IH]; [exact Hs |].
  rewrite for_up_S. apply f_keeps, IH.
Qed.

(** A descending loop of inverse steps undoes an ascending loop. *)
Lemma for_down_for_up (n : nat) (s : S) : P s -> for_down n g (for_up n f s) = s.
Proof.
  intros Hs. induction n as [| n IH]; [reflexivity |].
  rewrite for_up_S, for_down_S, g_undoes_f by (apply for_up_keeps; exact Hs).
  exact IH.
Qed.

End LoopInverse.

Section LoopInverse'.

Context {S : Type}.
Variable P : S -> Prop.
Variables f g : Z -> S -> S.
Hypothesis g_keeps : forall i s, P s -> P (g i s).
Hypothesis f_undoes_g : forall i s, P s -> f i (g i s) = s.

Lemma for_down_keeps (n : nat) (s : S) : P s -> P (for_down n g s).
Proof.
  revert s. induction n as [| n IH]; intros s Hs; [exact Hs |].
  rewrite for_down_S. apply IH, g_keeps, Hs.
Qed.

(** An ascending loop of inverse steps undoes a descending loop. *)
Lemma for_up_for_down (n : nat) (s : S) : P s -> for_up n f (for_down n g s) = s.
Proof.
  revert s. induction n as [| n IH]; intros s Hs; [reflexivity |].
  rewrite for_up_S, for_down_S, IH by (apply g_keeps; exact Hs).
  apply f_undoes_g, Hs.
Qed.

End LoopInverse'.

(** ** States and keys of 32-bit words *)

Lemma state_ok_4 (a b c d : Z) :
  is_u32 a -> is_u32 b -> is_u32 c -> is_u32 d -> state_ok [a; b; c; d].
Proof. intros. split; [reflexivity | auto using Forall_cons, Forall_nil]. Qed.

Lemma state_ok_inv (s : list Z) :
  state_ok s ->
  exists a b c d, s = [a; b; c; d] /\ is_u32 a /\ is_u32 b /\ is_u32 c /\ is_u32 d.
Proof.
  intros [Hlen Hall]. destruct (list4_inv s Hlen) as (a & b & c & d & ->).
  exists a, b, c, d.
  inversion Hall as [| ? ? Ha Hall1]; subst.
  inversion Hall1 as [| ? ? Hb Hall2]; subst.
  inversion Hall2 as [| ? ? Hc Hall3]; subst.
  inversion Hall3 as [| ? ? Hd _]; subst.
  auto.
Qed.

Lemma zero_u32 : is_u32 0.
Proof. unfold is_u32. lia. Qed.

Lemma aget_u32 (k : list Z) (i : Z) : Forall is_u32 k -> is_u32 (aget k i).
Proof.
  intros Hk. unfold aget. generalize (Z.to_nat i) as n.
  induction Hk as [| x k Hx Hk IH]; intros [| n]; cbn [nth];
    auto using zero_u32.
Qed.

Lemma aset_u32 (a : list Z) (i v : Z) :
  Forall is_u32 a -> is_u32 v -> Forall is_u32 (aset a i v).
Proof.
  intros Ha Hv. unfold aset. generalize (Z.to_nat i) as n.
  induction Ha as [| x a Hx Ha IH]; intros [| n]; cbn [aset_nat]; auto.
Qed.

Lemma load_words_u32 (n : nat) (b : list byte) : Forall is_u32 (load_words n b).
Proof.
  unfold load_words.
  apply (for_up_keeps (Forall is_u32)).
  - intros i w Hw. apply aset_u32; [exact Hw | apply Uint32_u32].
  - clear b. induction n as [| n IH]; cbn [repeat]; auto using zero_u32.
Qed.

Lemma subKey32_u32 (k : list Z) (r i : Z) : Forall is_u32 k -> is_u32 (subKey32 k r i).
Proof.
  intros Hk. unfold subKey32. cbv zeta.
  apply rotl32_u32, lxor_u32; [apply aget_u32, Hk | apply wrap32_range].
Qed.

(** ** One round and its inverse on the whole state *)

Lemma enc_words_4 (k : list Z) (r a b c d : Z) :
  enc_words k r [a; b; c; d] =
  [round32 a (subKey32 k r 0) r; round32 b (subKey32 k r 1) r;
   round32 c (subKey32 k r 2) r; round32 d (subKey32 k r 3) r].
Proof. reflexivity. Qed.

Lemma dec_words_4 (k : list Z) (r a b c d : Z) :
  dec_words k r [a; b; c; d] =
  [invRound32 a (subKey32 k r 0) r; invRound32 b (subKey32 k r 1) r;
   invRound32 c (subKey32 k r 2) r; invRound32 d (subKey32 k r 3) r].
Proof. reflexivity. Qed.

Lemma enc_words_ok (k : list Z) (r : Z) (s : list Z) :
  Forall is_u32 k -> state_ok s -> state_ok (enc_words k r s).
Proof.
  intros Hk Hs. destruct (state_ok_inv s Hs) as (a & b & c & d & -> & _).
  rewrite enc_words_4. apply state_ok_4; apply round32_u32, subKey32_u32, Hk.
Qed.

Lemma dec_words_ok (k : list Z) (r : Z) (s : list Z) :
  state_ok s -> state_ok (dec_words k r s).
Proof.
  intros Hs. destruct (state_ok_inv s Hs) as (a & b & c & d & -> & _).
  rewrite dec_words_4. apply state_ok_4; apply invRound32_u32.
Qed.

Lemma mixState32_ok (s : list Z) : state_ok s -> state_ok (mixState32 s).
Proof.
  intros Hs. destruct (state_ok_inv s Hs) as (a & b & c & d & -> & Ha & Hb & Hc & Hd).
  rewrite mixState32_4. cbv zeta.
  apply state_ok_4; repeat (apply lxor_u32 || apply rotl32_u32 || assumption).
Qed.

Lemma invMixState32_ok (s : list Z) : state_ok s -> state_ok (invMixState32 s).
Proof.
  intros Hs. destruct (state_ok_inv s Hs) as (a & b & c & d & -> & Ha & Hb & Hc & Hd).
  rewrite invMixState32_4. cbv zeta.
  apply state_ok_4; repeat (apply lxor_u32 || apply rotl32_u32 || assumption).
Qed.

Lemma dec_words_enc_words (k : list Z) (r : Z) (s : list Z) :
  Forall is_u32 k -> state_ok s -> dec_words k r (enc_words k r s) = s.
Proof.
  intros Hk Hs. destruct (state_ok_inv s Hs) as (a & b & c & d & -> & Ha & Hb & Hc & Hd).
  rewrite enc_words_4, dec_words_4.
  rewrite !invRound32_round32_any by (assumption || apply subKey32_u32, Hk).
  reflexivity.
Qed.

Lemma enc_words_dec_words (k : list Z) (r : Z) (s : list Z) :
  Forall is_u32 k -> state_ok s -> enc_words k r (dec_words k r s) = s.
Proof.
  intros Hk Hs. destruct (state_ok_inv s Hs) as (a & b & c & d & -> & Ha & Hb & Hc & Hd).
  rewrite dec_words_4, enc_words_4.
  rewrite !round32_invRound32_any by (assumption || apply subKey32_u32, Hk).
  reflexivity.
Qed.

Lemma enc_rounds_ok (k s : list Z) :
  Forall is_u32 k -> state_ok s -> state_ok (enc_rounds k s).
Proof.
  intros Hk Hs. unfold enc_rounds. apply (for_up_keeps state_ok); [| exact Hs].
  intros r c Hc. apply mixState32_ok, enc_words_ok; assumption.
Qed.

Lemma dec_rounds_ok (k s : list Z) : state_ok s -> state_ok (dec_rounds k s).
Proof.
  intros Hs. unfold dec_rounds. apply (for_down_keeps state_ok); [| exact Hs].
  intros r c Hc. apply dec_words_ok, invMixState32_ok, Hc.
Qed.

(** The sixteen rounds of [Decrypt] undo the sixteen rounds of [Encrypt]. *)
Lemma dec_rounds_enc_rounds (k s : list Z) :
  Forall is_u32 k -> state_ok s -> dec_rounds k (enc_rounds k s) = s.
Proof.
  intros Hk Hs. unfold dec_rounds, enc_rounds.
  apply (for_down_for_up state_ok); [| | exact Hs].
  - intros r c Hc. apply mixState32_ok, enc_words_ok; assumption.
  - intros r c Hc.
    rewrite invMixState32_undoes by (apply enc_words_ok; assumption).
    apply dec_words_enc_words; assumption.
Qed.

Lemma enc_rounds_dec_rounds (k s : list Z) :
  Forall is_u32 k -> state_ok s -> enc_rounds k (dec_rounds k s) = s.
Proof.
  intros Hk Hs. unfold dec_rounds, enc_rounds.
  apply (for_up_for_down state_ok); [| | exact Hs].
  - intros r c Hc. apply dec_words_ok, invMixState32_ok, Hc.
  - intros r c Hc.
    rewrite enc_words_dec_words by (try apply invMixState32_ok; assumption).
    apply mixState32_invMixState32, Hc.
Qed.

(** ** Blocks of sixteen bytes *)

Lemma aset_length (a : list Z) (i v : Z) : List.length (aset a i v) = List.length a.
Proof.
  unfold aset. generalize (Z.to_nat i) as n.
  induction a as [| x a IH]; intros [| n]; cbn [aset_nat List.length]; auto.
Qed.

Lemma load_words_length (n : nat) (b : list byte) : List.length (load_words n b) = n.
Proof.
  unfold load_words.
  apply (for_up_keeps (fun w => List.length w = n)).
  - intros i w Hw. rewrite aset_length. exact Hw.
  - apply repeat_length.
Qed.

Lemma load_words_ok (b : list byte) : state_ok (load_words 4 b).
Proof. split; [apply load_words_length | apply load_words_u32]. Qed.

Lemma list16_inv {A : Type} (l : list A) :
  List.length l = 16%nat ->
  exists b0 b1 b2 b3 b4 b5 b6 b7 b8 b9 b10 b11 b12 b13 b14 b15,
    l = [b0; b1; b2; b3; b4; b5; b6; b7; b8; b9; b10; b11; b12; b13; b14; b15].
Proof.
  intros H.
  do 16 (destruct l as [| ? l]; [discriminate |]).
  destruct l; [| discriminate].
  repeat eexists.
Qed.

Lemma load_words_16 (b0 b1 b2 b3 b4 b5 b6 b7 b8 b9 b10 b11 b12 b13 b14 b15 : byte) :
  load_words 4 [b0; b1; b2; b3; b4; b5; b6; b7; b8; b9; b10; b11; b12; b13; b14; b15] =
  [binary.Uint32 [b0; b1; b2; b3]; binary.Uint32 [b4; b5; b6; b7];
   binary.Uint32 [b8; b9; b10; b11]; binary.Uint32 [b12; b13; b14; b15]].
Proof. reflexivity. Qed.

Lemma store_words_4 (a b c d : Z) :
  store_words [a; b; c; d] (repeat x00 (Z.to_nat BlockSize)) =
  binary.PutUint32 a ++ binary.PutUint32 b ++ binary.PutUint32 c ++ binary.PutUint32 d.
Proof. reflexivity. Qed.

Lemma store_words_length (s : list Z) :
  List.length s = 4%nat ->
  List.length (store_words s (repeat x00 (Z.to_nat BlockSize))) = 16%nat.
Proof.
  intros Hlen. destruct (list4_inv s Hlen) as (a & b & c & d & ->).
  rewrite store_words_4. reflexivity.
Qed.

(** Reading back the words that were written gives the same state. *)
Lemma load_words_store_words (s : list Z) :
  state_ok s -> load_words 4 (store_words s (repeat x00 (Z.to_nat BlockSize))) = s.
Proof.
  intros Hs. destruct (state_ok_inv s Hs) as (a & b & c & d & -> & Ha & Hb & Hc & Hd).
  rewrite store_words_4. unfold binary.PutUint32. cbn [app].
  rewrite load_words_16.
  change (binary.Uint32 (binary.PutUint32 a) :: binary.Uint32 (binary.PutUint32 b)
          :: binary.Uint32 (binary.PutUint32 c) :: binary.Uint32 (binary.PutUint32 d) :: nil
          = [a; b; c; d]).
  rewrite !Uint32_PutUint32 by assumption. reflexivity.
Qed.

(** Writing the words that were read gives the same sixteen bytes. *)
Lemma store_words_load_words (b : list byte) :
  List.length b = 16%nat ->
  store_words (load_words 4 b) (repeat x00 (Z.to_nat BlockSize)) = b.
Proof.
  intros Hlen.
  destruct (list16_inv b Hlen)
    as (b0 & b1 & b2 & b3 & b4 & b5 & b6 & b7 & b8 & b9 & b10 & b11 & b12 & b13 & b14 & b15 & ->).
  rewrite load_words_16, store_words_4, !PutUint32_Uint32. reflexivity.
Qed.

(** ** The functional interface *)

Lemma len_eqb (b : list byte) (n : nat) :
  (len b =? Z.of_nat n) = Nat.eqb (List.length b) n.
Proof.
  unfold len. destruct (Nat.eqb_spec (List.length b) n) as [-> | Hne].
  - apply Z.eqb_refl.
  - apply Z.eqb_neq. lia.
Qed.

Lemma Encrypt_sized (plain k : list byte) :
  List.length plain = 16%nat -> List.length k = 32%nat ->
  Encrypt plain k =
  (store_words (enc_rounds (load_words 8 k) (load_words 4 plain))
               (repeat x00 (Z.to_nat BlockSize)), None).
Proof.
  intros Hp Hk. unfold Encrypt.
  change BlockSize with (Z.of_nat 16). change 32 with (Z.of_nat 32).
  rewrite !len_eqb, Hp, Hk. reflexivity.
Qed.

Lemma Decrypt_sized (ciphertext k : list byte) :
  List.length ciphertext = 16%nat -> List.length k = 32%nat ->
  Decrypt ciphertext k =
  (store_words (dec_rounds (load_words 8 k) (load_words 4 ciphertext))
               (repeat x00 (Z.to_nat BlockSize)), None).
Proof.
  intros Hc Hk. unfold Decrypt.
  change BlockSize with (Z.of_nat 16). change 32 with (Z.of_nat 32).
  rewrite !len_eqb, Hc, Hk. reflexivity.
Qed.

(** C1. For every 16-byte block [P] and every 32-byte key [K], [Encrypt]
    succeeds with some ciphertext [C], and [Decrypt] of [C] under [K]
    succeeds and returns [P]. *)
Theorem Decrypt_Encrypt (P K : list byte) :
  List.length P = 16%nat -> List.length K = 32%nat ->
  exists C, Encrypt P K = (C, None) /\ Decrypt C K = (P, None).
Proof.
  intros HP HK. rewrite (Encrypt_sized P K HP HK).
  eexists. split; [reflexivity |].
  pose proof (load_words_u32 8 K) as Hk.
  pose proof (load_words_ok P) as Hs.
  rewrite Decrypt_sized
    by (try apply store_words_length; try apply enc_rounds_ok; try apply Hs; assumption).
  rewrite load_words_store_words by (apply enc_rounds_ok; assumption).
  rewrite dec_rounds_enc_rounds by assumption.
  rewrite store_words_load_words by exact HP. reflexivity.
Qed.

(** C10. For every 16-byte block [C] and every 32-byte key [K], [Decrypt]
    succeeds with some block [P], and [Encrypt] of [P] under [K] succeeds
    and returns [C]: the two functions are inverse bijections on blocks. *)
Theorem Encrypt_Decrypt (C K : list byte) :
  List.length C = 16%nat -> List.length K = 32%nat ->
  exists P, Decrypt C K = (P, None) /\ Encrypt P K = (C, None).
Proof.
  intros HC HK. rewrite (Decrypt_sized C K HC HK).
  eexists. split; [reflexivity |].
  pose proof (load_words_u32 8 K) as Hk.
  pose proof (load_words_ok C) as Hs.
  rewrite Encrypt_sized
    by (try apply store_words_length; try apply dec_rounds_ok; try apply Hs; assumption).
  rewrite load_words_store_words by (apply dec_rounds_ok; assumption).
  rewrite enc_rounds_dec_rounds by assumption.
  rewrite store_words_load_words by exact HC. reflexivity.
Qed.

Lemma Decrypt_Encrypt_witness :
  let P := [x00; x11; x22; x33; x44; x55; x66; x77; x88; x99; xaa; xbb; xcc; xdd; xee; xff] in
  let K := repeat x5a 32 in
  List.length P = 16%nat /\ List.length K = 32%nat /\
  exists C, Encrypt P K = (C, None) /\ Decrypt C K = (P, None).
Proof.
  split; [reflexivity | split; [reflexivity |]].
  apply (Decrypt_Encrypt
           [x00; x11; x22; x33; x44; x55; x66; x77; x88; x99; xaa; xbb; xcc; xdd; xee; xff]
           (repeat x5a 32)); reflexivity.
Defined.

Lemma Encrypt_Decrypt_witness :
  let C := [xff; xee; xdd; xcc; xbb; xaa; x99; x88; x77; x66; x55; x44; x33; x22; x11; x00] in
  let K := repeat xc3 32 in
  List.length C = 16%nat /\ List.length K = 32%nat /\
  exists P, Decrypt C K = (P, None) /\ Encrypt P K = (C, None).
Proof.
  split; [reflexivity | split; [reflexivity |]].
  apply (Encrypt_Decrypt
           [xff; xee; xdd; xcc; xbb; xaa; x99; x88; x77; x66; x55; x44; x33; x22; x11; x00]
           (repeat xc3 32)); reflexivity.
Defined.

(** ** The key schedule against its reference *)

(** The library rotation is the arithmetic circular rotation. *)
Lemma rotl32_rotateLeft_ref (x n : Z) :
  is_u32 x -> 0 <= n < 32 -> rotl32 x n = rotateLeft_ref x n.
Proof.
  intros Hx Hn. unfold rotl32, bits.RotateLeft32, rotateLeft_ref. cbv zeta.
  rewrite land_31, (Z.mod_small n 32) by exact Hn.
  assert (Hdisj : Z.land (wrap32 (Z.shiftl x n)) (Z.shiftr x (32 - n)) = 0).
  { apply Z.bits_inj'. intros i Hi.
    rewrite Z.land_spec, wrap32_testbit, Z.shiftl_spec, Z.shiftr_spec, Z.bits_0 by exact Hi.
    destruct (Z.ltb_spec i n) as [Hlt | Hge].
    - rewrite (Z.testbit_neg_r x (i - n)) by lia. destruct (i <? 32); reflexivity.
    - rewrite (u32_high_bits x (i + (32 - n))) by (assumption || lia).
      apply andb_false_r. }
  rewrite <- Z.lxor_lor, <- Z.add_nocarry_lxor by exact Hdisj.
  unfold wrap32. rewrite Z.shiftl_mul_pow2, Z.shiftr_div_pow2 by lia. reflexivity.
Qed.

Lemma subKey32_subkey_ref (k : list Z) (r i : Z) :
  Forall is_u32 k -> subKey32 k r i = subkey_ref k r i.
Proof.
  intros Hk. unfold subKey32, subkey_ref, aget. cbv zeta.
  rewrite land_7, land_31.
  apply rotl32_rotateLeft_ref.
  - apply lxor_u32; [apply (aget_u32 k ((i + r) mod 8) Hk) | apply wrap32_range].
  - apply Z.mod_pos_bound. lia.
Qed.

(** C5. For every 8-word key, every round [r] in [0,16) and every word
    index [i] in [0,4), [subKey32] equals the reference
    [rotateLeft (key[(i + r) mod 8] XOR ((i*73 + r*91) mod 2^32)) ((r + i) mod 32)];
    and, the subkey being a function of [(key, r, i)] alone, round [r] of
    the encrypting path and round [r] of the decrypting path apply their
    round functions with these same four subkeys. *)
Theorem subKey32_reference (k : list Z) (r : Z) :
  List.length k = 8%nat -> Forall is_u32 k -> 0 <= r < 16 ->
  (forall i, 0 <= i < 4 -> subKey32 k r i = subkey_ref k r i) /\
  (forall a b c d,
     enc_words k r [a; b; c; d] =
     [round32 a (subkey_ref k r 0) r; round32 b (subkey_ref k r 1) r;
      round32 c (subkey_ref k r 2) r; round32 d (subkey_ref k r 3) r]) /\
  (forall a b c d,
     dec_words k r [a; b; c; d] =
     [invRound32 a (subkey_ref k r 0) r; invRound32 b (subkey_ref k r 1) r;
      invRound32 c (subkey_ref k r 2) r; invRound32 d (subkey_ref k r 3) r]).
Proof.
  intros _ Hk _. split; [| split].
  - intros i _. apply subKey32_subkey_ref, Hk.
  - intros a b c d. rewrite enc_words_4, !subKey32_subkey_ref by exact Hk. reflexivity.
  - intros a b c d. rewrite dec_words_4, !subKey32_subkey_ref by exact Hk. reflexivity.
Qed.

Lemma subKey32_reference_witness :
  let k := [0x00010203; 0x04050607; 0x08090A0B; 0x0C0D0E0F;
            0x10111213; 0x14151617; 0x18191A1B; 0xFFFFFFFF] in
  List.length k = 8%nat /\ Forall is_u32 k /\ 0 <= 13 < 16 /\
  ((forall i, 0 <= i < 4 -> subKey32 k 13 i = subkey_ref k 13 i) /\
   (forall a b c d,
      enc_words k 13 [a; b; c; d] =
      [round32 a (subkey_ref k 13 0) 13; round32 b (subkey_ref k 13 1) 13;
       round32 c (subkey_ref k 13 2) 13; round32 d (subkey_ref k 13 3) 13]) /\
   (forall a b c d,
      dec_words k 13 [a; b; c; d] =
      [invRound32 a (subkey_ref k 13 0) 13; invRound32 b (subkey_ref k 13 1) 13;
       invRound32 c (subkey_ref k 13 2) 13; invRound32 d (subkey_ref k 13 3) 13])).
Proof.
  cbv zeta.
  assert (Hk : Forall is_u32 [0x00010203; 0x04050607; 0x08090A0B; 0x0C0D0E0F;
                              0x10111213; 0x14151617; 0x18191A1B; 0xFFFFFFFF])
    by (repeat (apply Forall_cons; [unfold is_u32; lia |]); apply Forall_nil).
  split; [reflexivity | split; [exact Hk | split; [lia |]]].
  apply (subKey32_reference
           [0x00010203; 0x04050607; 0x08090A0B; 0x0C0D0E0F;
            0x10111213; 0x14151617; 0x18191A1B; 0xFFFFFFFF] 13 eq_refl Hk).
  lia.
Defined.

(** ** Size validation *)

Lemma len_neqb (b : list byte) (n : nat) :
  List.length b <> n -> (len b =? Z.of_nat n) = false.
Proof. intros H. rewrite len_eqb. apply Nat.eqb_neq, H. Qed.

Lemma Encrypt_bad_block (plain k : list byte) :
  List.length plain <> 16%nat -> Encrypt plain k = ([], Some errPlaintext).
Proof.
  intros H. unfold Encrypt. change BlockSize with (Z.of_nat 16).
  rewrite len_neqb by exact H. reflexivity.
Qed.

Lemma Encrypt_bad_key (plain k : list byte) :
  List.length plain = 16%nat -> List.length k <> 32%nat ->
  Encrypt plain k = ([], Some errKey).
Proof.
  intros Hp Hk. unfold Encrypt.
  change BlockSize with (Z.of_nat 16). change 32 with (Z.of_nat 32).
  rewrite len_eqb, Hp, len_neqb by exact Hk. reflexivity.
Qed.

Lemma Decrypt_bad_block (ciphertext k : list byte) :
  List.length ciphertext <> 16%nat -> Decrypt ciphertext k = ([], Some errCiphertext).
Proof.
  intros H. unfold Decrypt. change BlockSize with (Z.of_nat 16).
  rewrite len_neqb by exact H. reflexivity.
Qed.

Lemma Decrypt_bad_key (ciphertext k : list byte) :
  List.length ciphertext = 16%nat -> List.length k <> 32%nat ->
  Decrypt ciphertext k = ([], Some errKey).
Proof.
  intros Hc Hk. unfold Decrypt.
  change BlockSize with (Z.of_nat 16). change 32 with (Z.of_nat 32).
  rewrite len_eqb, Hc, len_neqb by exact Hk. reflexivity.
Qed.

Lemma Encrypt_good (plain k : list byte) :
  List.length plain = 16%nat -> List.length k = 32%nat ->
  exists out, Encrypt plain k = (out, None) /\ List.length out = 16%nat.
Proof.
  intros Hp Hk. rewrite Encrypt_sized by assumption.
  eexists. split; [reflexivity |].
  apply store_words_length, enc_rounds_ok; [apply load_words_u32 | apply load_words_ok].
Qed.

Lemma Decrypt_good (ciphertext k : list byte) :
  List.length ciphertext = 16%nat -> List.length k = 32%nat ->
  exists out, Decrypt ciphertext k = (out, None) /\ List.length out = 16%nat.
Proof.
  intros Hc Hk. rewrite Decrypt_sized by assumption.
  eexists. split; [reflexivity |].
  apply store_words_length, dec_rounds_ok, load_words_ok.
Qed.

(** C6. [Encrypt] returns an error if and only if the plaintext is not
    exactly 16 bytes or the key is not exactly 32 bytes; the error for a bad
    block differs from the error for a bad key; in the error case the
    returned slice is nil; otherwise exactly 16 bytes are returned. The
    same holds for [Decrypt] and its ciphertext argument. *)
Theorem size_validation (block k : list byte) :
  size_contract Encrypt errPlaintext block k /\
  size_contract Decrypt errCiphertext block k.
Proof.
  split; unfold size_contract.
  - split; [| split; [apply Encrypt_bad_block | split; [apply Encrypt_bad_key |
            split; [apply Encrypt_good | discriminate]]]].
    destruct (Nat.eq_dec (List.length block) 16) as [Hb | Hb];
      [destruct (Nat.eq_dec (List.length k) 32) as [Hk | Hk] |].
    + destruct (Encrypt_good block k Hb Hk) as (out & -> & _). cbn [snd].
      split; [intros H; contradiction | intros [H | H]; contradiction].
    + rewrite Encrypt_bad_key by assumption. cbn [snd].
      split; [intros _; right; exact Hk | discriminate].
    + rewrite Encrypt_bad_block by assumption. cbn [snd].
      split; [intros _; left; exact Hb | discriminate].
  - split; [| split; [apply Decrypt_bad_block | split; [apply Decrypt_bad_key |
            split; [apply Decrypt_good | discriminate]]]].
    destruct (Nat.eq_dec (List.length block) 16) as [Hb | Hb];
      [destruct (Nat.eq_dec (List.length k) 32) as [Hk | Hk] |].
    + destruct (Decrypt_good block k Hb Hk) as (out & -> & _). cbn [snd].
      split; [intros H; contradiction | intros [H | H]; contradiction].
    + rewrite Decrypt_bad_key by assumption. cbn [snd].
      split; [intros _; right; exact Hk | discriminate].
    + rewrite Decrypt_bad_block by assumption. cbn [snd].
      split; [intros _; left; exact Hb | discriminate].
Qed.

Lemma size_validation_examples :
  Encrypt (repeat x00 15) (repeat x00 32) = ([], Some errPlaintext) /\
  Encrypt (repeat x00 17) (repeat x00 32) = ([], Some errPlaintext) /\
  Encrypt (repeat x00 16) (repeat x00 31) = ([], Some errKey) /\
  Encrypt (repeat x00 16) (repeat x00 33) = ([], Some errKey) /\
  Decrypt (repeat x00 15) (repeat x00 32) = ([], Some errCiphertext) /\
  Decrypt (repeat x00 16) (repeat x00 33) = ([], Some errKey).
Proof. repeat split. Qed.

(** ** The cipher object *)

Lemma NewCipher_inv (k : list byte) (c : gingaCipher) :
  NewCipher k = (Some c, None) -> List.length k = 32%nat /\ key c = k.
Proof.
  unfold NewCipher. change 32 with (Z.of_nat 32). rewrite len_eqb.
  destruct (Nat.eqb_spec (List.length k) 32) as [Hk | Hk]; cbn [negb].
  - intros H. injection H as <-. split; [exact Hk | reflexivity].
  - discriminate.
Qed.

Lemma firstn_16_length (src : list byte) :
  16 <= len src -> List.length (firstn 16 src) = 16%nat.
Proof. unfold len. intros H. rewrite length_firstn. lia. Qed.

Lemma copy_block (dst out : list byte) :
  List.length out = 16%nat -> 16 <= len dst -> copy dst out = out ++ skipn 16 dst.
Proof.
  unfold copy, len. intros Ho Hd. rewrite Ho, firstn_all2 by lia. reflexivity.
Qed.

Lemma short_buffers (dst src : list byte) :
  len src < 16 \/ len dst < 16 ->
  (len src <? BlockSize) || (len dst <? BlockSize) = true.
Proof.
  unfold BlockSize. intros [H | H]; apply orb_true_iff; [left | right];
    apply Z.ltb_lt; exact H.
Qed.

Lemma full_buffers (dst src : list byte) :
  16 <= len src -> 16 <= len dst ->
  (len src <? BlockSize) || (len dst <? BlockSize) = false.
Proof.
  unfold BlockSize. intros Hs Hd. apply orb_false_iff. split; apply Z.ltb_ge; assumption.
Qed.

Lemma method_Encrypt_full (c : gingaCipher) (dst src : list byte) :
  List.length (key c) = 32%nat -> 16 <= len src -> 16 <= len dst ->
  exists out,
    Encrypt (firstn 16 src) (key c) = (out, None) /\ List.length out = 16%nat /\
    gingaCipher.Encrypt c dst src = Returns (out ++ skipn 16 dst).
Proof.
  intros Hk Hs Hd.
  destruct (Encrypt_good (firstn 16 src) (key c) (firstn_16_length src Hs) Hk)
    as (out & Hout & Hlen).
  exists out. split; [exact Hout | split; [exact Hlen |]].
  unfold gingaCipher.Encrypt. rewrite full_buffers by assumption.
  change (slice src 0 BlockSize) with (firstn 16 src). rewrite Hout.
  rewrite copy_block by assumption. reflexivity.
Qed.

Lemma method_Decrypt_full (c : gingaCipher) (dst src : list byte) :
  List.length (key c) = 32%nat -> 16 <= len src -> 16 <= len dst ->
  exists out,
    Decrypt (firstn 16 src) (key c) = (out, None) /\ List.length out = 16%nat /\
    gingaCipher.Decrypt c dst src = Returns (out ++ skipn 16 dst).
Proof.
  intros Hk Hs Hd.
  destruct (Decrypt_good (firstn 16 src) (key c) (firstn_16_length src Hs) Hk)
    as (out & Hout & Hlen).
  exists out. split; [exact Hout | split; [exact Hlen |]].
  unfold gingaCipher.Decrypt. rewrite full_buffers by assumption.
  change (slice src 0 BlockSize) with (firstn 16 src). rewrite Hout.
  rewrite copy_block by assumption. reflexivity.
Qed.

(** C7. The cipher object returned by [NewCipher] behaves as the functional
    interface: [BlockSize] returns 16, and on buffers of at least 16 bytes
    the [Encrypt] method leaves [Encrypt (first 16 bytes of src) key] in the
    first 16 bytes of [dst] and the rest of [dst] unchanged; the [Decrypt]
    method does the same with [Decrypt]. *)
Theorem cipher_object_agrees (k : list byte) (c : gingaCipher) :
  NewCipher k = (Some c, None) ->
  gingaCipher.BlockSize c = 16 /\
  method_agrees gingaCipher.Encrypt Encrypt c k /\
  method_agrees gingaCipher.Decrypt Decrypt c k.
Proof.
  intros Hnew. destruct (NewCipher_inv k c Hnew) as [Hlen Hkey].
  split; [reflexivity |].
  split; intros dst src Hs Hd; rewrite <- Hkey in Hlen |- *.
  - apply method_Encrypt_full; assumption.
  - apply method_Decrypt_full; assumption.
Qed.

Lemma cipher_object_agrees_witness :
  let k := repeat x42 32 in
  let c := {| key := k |} in
  NewCipher k = (Some c, None) /\
  (gingaCipher.BlockSize c = 16 /\
   method_agrees gingaCipher.Encrypt Encrypt c k /\
   method_agrees gingaCipher.Decrypt Decrypt c k).
Proof.
  cbv zeta. split; [reflexivity |].
  apply (cipher_object_agrees (repeat x42 32) {| key := repeat x42 32 |}).
  reflexivity.
Defined.

(** C8. On a cipher object returned by [NewCipher], the [Encrypt] and
    [Decrypt] methods panic exactly when [src] or [dst] is shorter than 16
    bytes, and return otherwise. *)
Theorem cipher_object_panics (k : list byte) (c : gingaCipher) :
  NewCipher k = (Some c, None) ->
  forall dst src,
    (len src < 16 \/ len dst < 16 ->
     gingaCipher.Encrypt c dst src = Panics errBlock /\
     gingaCipher.Decrypt c dst src = Panics errBlock) /\
    (16 <= len src /\ 16 <= len dst ->
     (exists d, gingaCipher.Encrypt c dst src = Returns d) /\
     (exists d, gingaCipher.Decrypt c dst src = Returns d)).
Proof.
  intros Hnew dst src. destruct (NewCipher_inv k c Hnew) as [Hlen Hkey].
  rewrite <- Hkey in Hlen. split.
  - intros Hshort. unfold gingaCipher.Encrypt, gingaCipher.Decrypt.
    rewrite short_buffers by exact Hshort. split; reflexivity.
  - intros [Hs Hd]. split.
    + destruct (method_Encrypt_full c dst src Hlen Hs Hd) as (out & _ & _ & ->).
      eexists. reflexivity.
    + destruct (method_Decrypt_full c dst src Hlen Hs Hd) as (out & _ & _ & ->).
      eexists. reflexivity.
Qed.

Lemma cipher_object_panics_witness :
  let k := repeat x42 32 in
  let c := {| key := k |} in
  NewCipher k = (Some c, None) /\
  forall dst src,
    (len src < 16 \/ len dst < 16 ->
     gingaCipher.Encrypt c dst src = Panics errBlock /\
     gingaCipher.Decrypt c dst src = Panics errBlock) /\
    (16 <= len src /\ 16 <= len dst ->
     (exists d, gingaCipher.Encrypt c dst src = Returns d) /\
     (exists d, gingaCipher.Decrypt c dst src = Returns d)).
Proof.
  cbv zeta. split; [reflexivity |].
  apply (cipher_object_panics (repeat x42 32) {| key := repeat x42 32 |}).
  reflexivity.
Defined.

(** ** The word codec and the constructor on their own *)

(** The little-endian codec loses nothing: the four words read from a
    16-byte block, written back, give the block again. *)
Theorem codec_roundtrip (b : list byte) :
  List.length b = 16%nat ->
  store_words (load_words 4 b) (repeat x00 (Z.to_nat BlockSize)) = b.
Proof. apply store_words_load_words. Qed.

Lemma codec_roundtrip_witness :
  let b := [x0f; x1e; x2d; x3c; x4b; x5a; x69; x78; x87; x96; xa5; xb4; xc3; xd2; xe1; xf0] in
  List.length b = 16%nat /\
  store_words (load_words 4 b) (repeat x00 (Z.to_nat BlockSize)) = b.
Proof.
  cbv zeta. split; [reflexivity |].
  apply (codec_roundtrip
           [x0f; x1e; x2d; x3c; x4b; x5a; x69; x78; x87; x96; xa5; xb4; xc3; xd2; xe1; xf0]).
  reflexivity.
Defined.


(** ** Key sensitivity on the zero block

    Under the all-zero key and each of its 256 neighbours at one bit, the
    all-zero block encrypts to 257 ciphertexts of which none equals the
    first: the sanity check of the key schedule, run on one block. *)
Lemma key_sensitivity_zero_block :
  forallb (fun n =>
             negb (bytes_eqb (fst (Encrypt (repeat x00 16) (flip_bit (repeat x00 32) n)))
                             (fst (Encrypt (repeat x00 16) (repeat x00 32)))))
          (seq 0 256) = true.
Proof. vm_compute. reflexivity. Qed.

(** ** Rotations as a group action on 32-bit words *)

Lemma pow2_u32 (p : Z) : 0 <= p < 32 -> is_u32 (2 ^ p).
Proof.
  intros Hp. unfold is_u32. split.
  - apply Z.pow_nonneg. lia.
  - apply Z.pow_lt_mono_r; lia.
Qed.

Lemma RotateLeft32_lxor (a b n : Z) :
  is_u32 a -> is_u32 b ->
  bits.RotateLeft32 (Z.lxor a b) n
  = Z.lxor (bits.RotateLeft32 a n) (bits.RotateLeft32 b n).
Proof.
  intros Ha Hb. apply u32_ext.
  - apply RotateLeft32_u32, lxor_u32; assumption.
  - apply lxor_u32; apply RotateLeft32_u32; assumption.
  - intros i Hi.
    rewrite Z.lxor_spec, !RotateLeft32_testbit by (try apply lxor_u32; assumption).
    apply Z.lxor_spec.
Qed.

Lemma RotateLeft32_pow2 (p n : Z) :
  0 <= p < 32 -> bits.RotateLeft32 (2 ^ p) n = 2 ^ ((p + n) mod 32).
Proof.
  intros Hp.
  assert (Hm : 0 <= (p + n) mod 32 < 32) by (apply Z.mod_pos_bound; lia).
  apply u32_ext.
  - apply RotateLeft32_u32, pow2_u32, Hp.
  - apply pow2_u32, Hm.
  - intros i Hi. rewrite RotateLeft32_testbit by (try apply pow2_u32; assumption).
    assert (Hi' : 0 <= (i - n) mod 32 < 32) by (apply Z.mod_pos_bound; lia).
    rewrite !Z.pow2_bits_eqb by lia.
    destruct (Z.eqb_spec p ((i - n) mod 32)) as [He | Hne];
      destruct (Z.eqb_spec ((p + n) mod 32) i) as [He' | Hne']; try reflexivity; exfalso.
    + apply Hne'. rewrite He, Zplus_mod_idemp_l.
      replace (i - n + n) with i by lia. apply Z.mod_small, Hi.
    + apply Hne. rewrite <- He', Zminus_mod_idemp_l.
      replace (p + n - n) with p by lia. symmetry. apply Z.mod_small, Hp.
Qed.

Lemma RotateLeft32_add (x a b : Z) :
  is_u32 x ->
  bits.RotateLeft32 (bits.RotateLeft32 x a) b = bits.RotateLeft32 x (a + b).
Proof.
  intros Hx. apply u32_ext; try (repeat apply RotateLeft32_u32; exact Hx).
  intros i Hi.
  rewrite RotateLeft32_testbit by (try apply RotateLeft32_u32; assumption).
  rewrite !RotateLeft32_testbit by (assumption || (apply Z.mod_pos_bound; lia)).
  f_equal. rewrite Zminus_mod_idemp_l. f_equal. lia.
Qed.

(** Bit [i] of [rotl32 x n] is bit [(i - n) mod 32] of [x], and bit [i] of
    [rotr32 x n] is bit [(i + n) mod 32] of [x], for every amount [n],
    negative or beyond 32 included; both results stay within 32 bits. *)
Theorem rotl32_rotr32_bits (x n i : Z) :
  is_u32 x -> 0 <= i < 32 ->
  Z.testbit (rotl32 x n) i = Z.testbit x ((i - n) mod 32) /\
  Z.testbit (rotr32 x n) i = Z.testbit x ((i + n) mod 32) /\
  is_u32 (rotl32 x n) /\ is_u32 (rotr32 x n).
Proof.
  intros Hx Hi. unfold rotl32, rotr32. repeat split.
  - apply RotateLeft32_testbit; assumption.
  - rewrite RotateLeft32_testbit by assumption. f_equal. f_equal. lia.
  - apply RotateLeft32_u32, Hx.
  - apply RotateLeft32_u32, Hx.
  - apply RotateLeft32_u32, Hx.
  - apply RotateLeft32_u32, Hx.
Qed.

Lemma rotl32_rotr32_bits_witness :
  is_u32 0x80000001 /\ 0 <= 3 < 32 /\
  (Z.testbit (rotl32 0x80000001 4) 3 = Z.testbit 0x80000001 ((3 - 4) mod 32) /\
   Z.testbit (rotr32 0x80000001 4) 3 = Z.testbit 0x80000001 ((3 + 4) mod 32) /\
   is_u32 (rotl32 0x80000001 4) /\ is_u32 (rotr32 0x80000001 4)).
Proof.
  assert (Hx : is_u32 0x80000001) by (unfold is_u32; lia).
  assert (Hi : 0 <= 3 < 32) by lia.
  split; [exact Hx | split; [exact Hi |]].
  apply (rotl32_rotr32_bits 0x80000001 4 3 Hx Hi).
Defined.

(** On 32-bit words [rotr32] by [n] undoes [rotl32] by [n] and conversely,
    two left rotations compose by adding their amounts, and only the amount
    modulo 32 matters. *)
Theorem rotl32_algebra (x a b : Z) :
  is_u32 x ->
  rotr32 (rotl32 x a) a = x /\
  rotl32 (rotr32 x a) a = x /\
  rotl32 (rotl32 x a) b = rotl32 x (a + b) /\
  rotl32 x (a + 32) = rotl32 x a /\
  rotl32 x 0 = x.
Proof.
  intros Hx. unfold rotl32, rotr32.
  assert (Hinv : forall c d, (c + d) mod 32 = 0 ->
                   bits.RotateLeft32 (bits.RotateLeft32 x c) d = x).
  { intros c d Hcd. apply RotateLeft32_cancel; assumption. }
  split; [apply Hinv; replace (a + - a) with 0 by lia; reflexivity |].
  split; [apply Hinv; replace (- a + a) with 0 by lia; reflexivity |].
  split; [apply RotateLeft32_add, Hx |].
  split.
  - unfold bits.RotateLeft32. cbv zeta. rewrite !land_31.
    replace ((a + 32) mod 32) with (a mod 32); [reflexivity |].
    rewrite <- (Z.mod_add a 1 32) by lia. f_equal.
  - rewrite <- (Hinv 0 0) at 2 by reflexivity.
    rewrite RotateLeft32_add by exact Hx. reflexivity.
Qed.

Lemma rotl32_algebra_witness :
  is_u32 0xCAFEBABE /\
  (rotr32 (rotl32 0xCAFEBABE 13) 13 = 0xCAFEBABE /\
   rotl32 (rotr32 0xCAFEBABE 13) 13 = 0xCAFEBABE /\
   rotl32 (rotl32 0xCAFEBABE 13) 27 = rotl32 0xCAFEBABE (13 + 27) /\
   rotl32 0xCAFEBABE (13 + 32) = rotl32 0xCAFEBABE 13 /\
   rotl32 0xCAFEBABE 0 = 0xCAFEBABE).
Proof.
  assert (Hx : is_u32 0xCAFEBABE) by (unfold is_u32; lia).
  split; [exact Hx |].
  apply (rotl32_algebra 0xCAFEBABE 13 27 Hx).
Defined.

(** ** Wrap-around arithmetic, confusion and round function as bijections *)

(** [add32] and [sub32] wrap into 32 bits and undo each other on a 32-bit
    word, whatever the second operand. *)
Theorem add32_sub32_inverse (x y : Z) :
  is_u32 x ->
  sub32 (add32 x y) y = x /\ add32 (sub32 x y) y = x /\
  is_u32 (add32 x y) /\ is_u32 (sub32 x y).
Proof.
  intros Hx. unfold add32, sub32.
  split; [apply wrap32_add_sub, Hx |].
  split; [apply wrap32_sub_add, Hx |].
  split; apply wrap32_range.
Qed.

Lemma add32_sub32_inverse_witness :
  is_u32 0xFFFFFFFF /\
  (sub32 (add32 0xFFFFFFFF 0xFFFFFFFF) 0xFFFFFFFF = 0xFFFFFFFF /\
   add32 (sub32 0xFFFFFFFF 0xFFFFFFFF) 0xFFFFFFFF = 0xFFFFFFFF /\
   is_u32 (add32 0xFFFFFFFF 0xFFFFFFFF) /\ is_u32 (sub32 0xFFFFFFFF 0xFFFFFFFF)).
Proof.
  assert (Hx : is_u32 0xFFFFFFFF) by (unfold is_u32; lia).
  split; [exact Hx | apply (add32_sub32_inverse 0xFFFFFFFF 0xFFFFFFFF Hx)].
Defined.

(** [confuse32] after [deconfuse32] is the identity on 32-bit words too,
    and both keep their results within 32 bits: with the other direction
    they are inverse bijections of the 32-bit words. *)
Theorem confuse32_bijection (x : Z) :
  is_u32 x ->
  confuse32 (deconfuse32 x) = x /\
  is_u32 (confuse32 x) /\ is_u32 (deconfuse32 x).
Proof.
  intros Hx. split; [| split].
  - unfold deconfuse32, confuse32. cbv zeta.
    rewrite lxor_cancel_r.
    rewrite wrap32_sub_add by (apply rotr32_u32, Hx).
    apply rotl32_rotr32, Hx.
  - apply confuse32_u32, Hx.
  - apply deconfuse32_u32, Hx.
Qed.

Lemma confuse32_bijection_witness :
  is_u32 0 /\
  (confuse32 (deconfuse32 0) = 0 /\ is_u32 (confuse32 0) /\ is_u32 (deconfuse32 0)).
Proof.
  split; [exact zero_u32 | apply (confuse32_bijection 0 zero_u32)].
Defined.

(** For every integer round index [r], in or out of [0,16), [round32] and
    [invRound32] under the same 32-bit subkey are inverse to each other in
    both orders, and their results are 32-bit words. *)
Theorem round32_bijection (x k r : Z) :
  is_u32 x -> is_u32 k ->
  invRound32 (round32 x k r) k r = x /\
  round32 (invRound32 x k r) k r = x /\
  is_u32 (round32 x k r) /\ is_u32 (invRound32 x k r).
Proof.
  intros Hx Hk.
  split; [apply invRound32_round32_any; assumption |].
  split; [apply round32_invRound32_any; assumption |].
  split; [apply round32_u32, Hk | apply invRound32_u32].
Qed.

Lemma round32_bijection_witness :
  is_u32 0xFFFFFFFF /\ is_u32 0x80000000 /\
  (invRound32 (round32 0xFFFFFFFF 0x80000000 (-7)) 0x80000000 (-7) = 0xFFFFFFFF /\
   round32 (invRound32 0xFFFFFFFF 0x80000000 (-7)) 0x80000000 (-7) = 0xFFFFFFFF /\
   is_u32 (round32 0xFFFFFFFF 0x80000000 (-7)) /\
   is_u32 (invRound32 0xFFFFFFFF 0x80000000 (-7))).
Proof.
  assert (Hx : is_u32 0xFFFFFFFF) by (unfold is_u32; lia).
  assert (Hk : is_u32 0x80000000) by (unfold is_u32; lia).
  split; [exact Hx | split; [exact Hk |]].
  apply (round32_bijection 0xFFFFFFFF 0x80000000 (-7) Hx Hk).
Defined.

(** ** One flipped subkey bit always changes the round output *)

Lemma mod_eq_add (a b c m : Z) :
  a mod m = b mod m <-> (a + c) mod m = (b + c) mod m.
Proof.
  assert (H : forall u v w, u mod m = v mod m -> (u + w) mod m = (v + w) mod m).
  { intros u v w Huv. rewrite (Zplus_mod u), (Zplus_mod v), Huv. reflexivity. }
  split; [apply H |].
  intros Hc. apply (H _ _ (- c)) in Hc.
  replace (a + c + - c) with a in Hc by lia.
  replace (b + c + - c) with b in Hc by lia. exact Hc.
Qed.

Lemma lxor_mod_pow2 (a c n : Z) :
  0 <= n -> Z.lxor a c mod 2 ^ n = Z.lxor (a mod 2 ^ n) (c mod 2 ^ n).
Proof.
  intros Hn. apply Z.bits_inj'. intros i Hi.
  rewrite Z.lxor_spec, !Z.testbit_mod_pow2, Z.lxor_spec by exact Hn.
  destruct (i <? n); [reflexivity |].
  rewrite !andb_false_l. reflexivity.
Qed.

Lemma mod_eq_lxor (a b c n : Z) :
  0 <= n -> (a mod 2 ^ n = b mod 2 ^ n <-> Z.lxor a c mod 2 ^ n = Z.lxor b c mod 2 ^ n).
Proof.
  intros Hn. rewrite !lxor_mod_pow2 by exact Hn. split; intros H.
  - rewrite H. reflexivity.
  - rewrite <- (lxor_cancel_r (a mod 2 ^ n) (c mod 2 ^ n)), H. apply lxor_cancel_r.
Qed.

Lemma mod_pow2_wrap32 (a n : Z) : 0 <= n <= 32 -> wrap32 a mod 2 ^ n = a mod 2 ^ n.
Proof.
  intros Hn. unfold wrap32. apply Z.mod_mod_divide.
  exists (2 ^ (32 - n)). rewrite <- Z.pow_add_r by lia. f_equal. lia.
Qed.

Lemma first_diff_unique (a b p q : Z) :
  0 <= p -> 0 <= q -> first_diff_at a b p -> first_diff_at a b q -> p = q.
Proof.
  assert (H : forall u v, 0 <= u < v ->
                first_diff_at a b u -> first_diff_at a b v -> False).
  { intros u v Huv [_ Hne] [Heq _]. apply Hne.
    assert (Hdiv : (2 ^ (u + 1) | 2 ^ v)).
    { exists (2 ^ (v - (u + 1))). rewrite <- Z.pow_add_r by lia. f_equal. lia. }
    rewrite <- (Z.mod_mod_divide a (2 ^ v) (2 ^ (u + 1)) Hdiv).
    rewrite <- (Z.mod_mod_divide b (2 ^ v) (2 ^ (u + 1)) Hdiv).
    rewrite Heq. reflexivity. }
  intros Hp Hq Hap Haq.
  destruct (Z.lt_trichotomy p q) as [Hlt | [Heq | Hgt]]; [exfalso | exact Heq | exfalso].
  - apply (H p q); [lia | assumption | assumption].
  - apply (H q p); [lia | assumption | assumption].
Qed.

Lemma first_diff_add (a b c p : Z) :
  first_diff_at a b p -> first_diff_at (a + c) (b + c) p.
Proof.
  intros [Heq Hne]. split.
  - apply mod_eq_add, Heq.
  - intros H. apply Hne. apply (mod_eq_add a b c). exact H.
Qed.

Lemma first_diff_lxor (a b c p : Z) :
  0 <= p -> first_diff_at a b p -> first_diff_at (Z.lxor a c) (Z.lxor b c) p.
Proof.
  intros Hp [Heq Hne]. split.
  - apply mod_eq_lxor; assumption.
  - intros H. apply Hne. apply (mod_eq_lxor a b c); [lia | exact H].
Qed.

Lemma first_diff_wrap32 (a b p : Z) :
  0 <= p < 32 -> first_diff_at a b p -> first_diff_at (wrap32 a) (wrap32 b) p.
Proof.
  intros Hp [Heq Hne]. unfold first_diff_at.
  rewrite !mod_pow2_wrap32 by lia. split; assumption.
Qed.

Lemma first_diff_bit (v q : Z) : 0 <= q -> first_diff_at v (Z.lxor v (2 ^ q)) q.
Proof.
  intros Hq. unfold first_diff_at. rewrite !lxor_mod_pow2 by lia. split.
  - rewrite Z.mod_same by (apply Z.pow_nonzero; lia).
    rewrite Z.lxor_0_r. reflexivity.
  - assert (Hlt : 0 <= 2 ^ q < 2 ^ (q + 1)).
    { split; [apply Z.pow_nonneg; lia | apply Z.pow_lt_mono_r; lia]. }
    rewrite (Z.mod_small (2 ^ q)) by exact Hlt.
    intros H.
    apply (f_equal (Z.lxor (v mod 2 ^ (q + 1)))) in H.
    rewrite <- Z.lxor_assoc, Z.lxor_nilpotent, Z.lxor_0_l in H.
    assert (0 < 2 ^ q) by (apply Z.pow_pos_nonneg; lia). lia.
Qed.

Lemma lxor_swap_bit (a k e : Z) : Z.lxor (Z.lxor a k) (Z.lxor k e) = Z.lxor a e.
Proof.
  rewrite Z.lxor_assoc, <- (Z.lxor_assoc k k e), Z.lxor_nilpotent, Z.lxor_0_l.
  reflexivity.
Qed.

(** Flipping bit [p] of the subkey moves the word that leaves [confuse32]'s
    addition at bit [p] first, whatever the carries do above it. *)
Lemma confuse32_sum_first_diff (x k p : Z) :
  0 <= p < 32 ->
  first_diff_at (wrap32 (Z.lxor (add32 x k) 0xA5A5A5A5 + 0x3C3C3C3C))
                (wrap32 (Z.lxor (add32 x (Z.lxor k (2 ^ p))) 0xA5A5A5A5 + 0x3C3C3C3C))
                p.
Proof.
  intros Hp. apply first_diff_wrap32; [exact Hp |].
  apply first_diff_add, first_diff_lxor; [lia |].
  unfold add32. apply first_diff_wrap32; [exact Hp |].
  rewrite (Z.add_comm x k), (Z.add_comm x (Z.lxor k (2 ^ p))).
  apply first_diff_add, first_diff_bit. lia.
Qed.

(** If two round outputs under subkeys one bit apart were equal, the words
    leaving [confuse32]'s addition would differ in exactly one bit, at the
    position the two rotations before the XOR carry bit [p] back to. *)
Lemma round32_collision_bit (x k r p : Z) :
  is_u32 x -> is_u32 k -> 0 <= p < 32 ->
  round32 x (Z.lxor k (2 ^ p)) r = round32 x k r ->
  wrap32 (Z.lxor (add32 x (Z.lxor k (2 ^ p))) 0xA5A5A5A5 + 0x3C3C3C3C)
  = Z.lxor (wrap32 (Z.lxor (add32 x k) 0xA5A5A5A5 + 0x3C3C3C3C))
           (2 ^ (((p + - Z.land (r + 3) 31) mod 32 + - 7) mod 32)).
Proof.
  intros Hx Hk Hp Heq.
  assert (Hbit : is_u32 (2 ^ p)) by (apply pow2_u32, Hp).
  assert (Hk' : is_u32 (Z.lxor k (2 ^ p))) by (apply lxor_u32; assumption).
  unfold round32 in Heq. cbv zeta in Heq.
  set (n3 := Z.land (r + 3) 31) in *. set (n5 := Z.land (r + 5) 31) in *.
  set (c := confuse32 (add32 x k)) in *.
  set (c' := confuse32 (add32 x (Z.lxor k (2 ^ p)))) in *.
  assert (Hc : is_u32 c) by apply confuse32_u32, add32_u32.
  assert (Hc' : is_u32 c') by apply confuse32_u32, add32_u32.
  (* undo the last rotation *)
  apply (f_equal (fun z => rotr32 z n5)) in Heq.
  rewrite !rotr32_rotl32 in Heq
    by (apply lxor_u32; [apply rotl32_u32 |]; assumption).
  (* move the subkeys to one side *)
  apply (f_equal (fun z => Z.lxor z (Z.lxor k (2 ^ p)))) in Heq.
  rewrite lxor_cancel_r, lxor_swap_bit in Heq.
  (* undo the rotation by (r+3)&31 *)
  apply (f_equal (fun z => rotr32 z n3)) in Heq.
  rewrite rotr32_rotl32 in Heq by exact Hc'.
  unfold rotr32 in Heq.
  rewrite RotateLeft32_lxor in Heq by (try apply rotl32_u32; assumption).
  fold (rotr32 (rotl32 c n3) n3) in Heq.
  rewrite rotr32_rotl32, RotateLeft32_pow2 in Heq by assumption.
  (* undo the rotation by 7 inside confuse32 *)
  assert (Hm : 0 <= (p + - n3) mod 32 < 32) by (apply Z.mod_pos_bound; lia).
  unfold c, c', confuse32 in Heq. cbv zeta in Heq.
  apply (f_equal (fun z => rotr32 z 7)) in Heq.
  rewrite rotr32_rotl32 in Heq by apply wrap32_range.
  unfold rotr32 in Heq.
  rewrite RotateLeft32_lxor in Heq by (try apply rotl32_u32; try apply pow2_u32;
                                       try apply wrap32_range; assumption).
  rewrite RotateLeft32_pow2 in Heq by exact Hm.
  fold (rotr32 (rotl32 (wrap32 (Z.lxor (add32 x k) 0xA5A5A5A5 + 0x3C3C3C3C)) 7) 7) in Heq.
  rewrite rotr32_rotl32 in Heq by apply wrap32_range.
  exact Heq.
Qed.

(** The collision is impossible unless the two rotations before the XOR
    bring the flipped bit back onto itself, which takes [r + 10] to be a
    multiple of 32. *)
Lemma round32_key_bit_general (x k r p : Z) :
  is_u32 x -> is_u32 k -> (r + 10) mod 32 <> 0 -> 0 <= p < 32 ->
  round32 x (Z.lxor k (2 ^ p)) r <> round32 x k r.
Proof.
  intros Hx Hk Hr Hp Heq.
  pose proof (round32_collision_bit x k r p Hx Hk Hp Heq) as Hv.
  pose proof (confuse32_sum_first_diff x k p Hp) as Hfirst.
  rewrite Hv in Hfirst.
  set (q := ((p + - Z.land (r + 3) 31) mod 32 + - 7) mod 32) in *.
  assert (Hq : 0 <= q < 32) by (apply Z.mod_pos_bound; lia).
  pose proof (first_diff_bit (wrap32 (Z.lxor (add32 x k) 0xA5A5A5A5 + 0x3C3C3C3C)) q
                (proj1 Hq)) as Hsecond.
  assert (Hpq : p = q)
    by (apply (first_diff_unique _ _ p q (proj1 Hp) (proj1 Hq) Hfirst Hsecond)).
  unfold q in Hpq. rewrite land_31 in Hpq.
  replace (p + - ((r + 3) mod 32)) with (p - (r + 3) mod 32) in Hpq by lia.
  rewrite Zminus_mod_idemp_r, Zplus_mod_idemp_l in Hpq.
  apply Hr.
  pose proof (Z.div_mod (p - (r + 3) + - 7) 32 ltac:(lia)) as Hdm.
  rewrite <- Hpq in Hdm.
  replace (r + 10) with (- ((p - (r + 3) + - 7) / 32) * 32) by lia.
  apply Z.mod_mul. lia.
Qed.

(** For every 32-bit word [x], 32-bit subkey [k], round [r] in [0,16) and
    bit position [p] below 32, flipping bit [p] of the subkey changes the
    output of [round32]. *)
Theorem round32_key_bit (x k r p : Z) :
  is_u32 x -> is_u32 k -> 0 <= r < 16 -> 0 <= p < 32 ->
  round32 x (Z.lxor k (2 ^ p)) r <> round32 x k r.
Proof.
  intros Hx Hk Hr Hp. apply round32_key_bit_general; try assumption.
  rewrite Z.mod_small by lia. lia.
Qed.

Lemma round32_key_bit_witness :
  is_u32 0x12345678 /\ is_u32 0x9ABCDEF0 /\ 0 <= 15 < 16 /\ 0 <= 31 < 32 /\
  round32 0x12345678 (Z.lxor 0x9ABCDEF0 (2 ^ 31)) 15 <> round32 0x12345678 0x9ABCDEF0 15.
Proof.
  assert (Hx : is_u32 0x12345678) by (unfold is_u32; lia).
  assert (Hk : is_u32 0x9ABCDEF0) by (unfold is_u32; lia).
  assert (Hr : 0 <= 15 < 16) by lia.
  assert (Hp : 0 <= 31 < 32) by lia.
  split; [exact Hx | split; [exact Hk | split; [exact Hr | split; [exact Hp |]]]].
  apply (round32_key_bit 0x12345678 0x9ABCDEF0 15 31 Hx Hk Hr Hp).
Defined.

(** ** The key schedule, word by word and bit by bit *)

Lemma aget_aset_same (k : list Z) (j v : Z) :
  0 <= j < Z.of_nat (List.length k) -> aget (aset k j v) j = v.
Proof.
  intros Hj. unfold aget, aset.
  assert (Hn : (Z.to_nat j < List.length k)%nat) by lia.
  revert Hn. generalize (Z.to_nat j) as n. clear Hj.
  induction k as [| h t IH]; intros n Hn; cbn [List.length] in Hn; [lia |].
  destruct n as [| n]; cbn [aset_nat nth]; [reflexivity | apply IH; lia].
Qed.

Lemma aget_aset_other (k : list Z) (j j' v : Z) :
  0 <= j -> 0 <= j' -> j <> j' -> aget (aset k j v) j' = aget k j'.
Proof.
  intros Hj Hj' Hne. unfold aget, aset.
  assert (Hn : Z.to_nat j <> Z.to_nat j') by lia.
  revert Hn. generalize (Z.to_nat j) as n, (Z.to_nat j') as m. clear.
  induction k as [| h t IH]; intros n m Hn; [reflexivity |].
  destruct n as [| n], m as [| m]; cbn [aset_nat nth];
    [congruence | reflexivity | reflexivity | apply IH; congruence].
Qed.

Lemma flip_word_bit_u32 (k : list Z) (j b : Z) :
  Forall is_u32 k -> 0 <= b < 32 -> Forall is_u32 (flip_word_bit k j b).
Proof.
  intros Hk Hb. unfold flip_word_bit.
  apply aset_u32; [exact Hk |]. apply lxor_u32; [apply aget_u32, Hk | apply pow2_u32, Hb].
Qed.

Lemma subKey32_flip (k : list Z) (r i b : Z) :
  List.length k = 8%nat -> Forall is_u32 k -> 0 <= b < 32 ->
  subKey32 (flip_word_bit k ((i + r) mod 8) b) r i
  = Z.lxor (subKey32 k r i) (2 ^ ((b + r + i) mod 32)).
Proof.
  intros Hlen Hk Hb. unfold subKey32, flip_word_bit. cbv zeta.
  rewrite land_7, land_31.
  assert (Hj : 0 <= (i + r) mod 8 < 8) by (apply Z.mod_pos_bound; lia).
  rewrite aget_aset_same by (rewrite Hlen; lia).
  set (base := aget k ((i + r) mod 8)).
  assert (Hbase : is_u32 base) by (apply aget_u32, Hk).
  replace (Z.lxor (Z.lxor base (2 ^ b)) (wrap32 (i * 73 + r * 91)))
    with (Z.lxor (Z.lxor base (wrap32 (i * 73 + r * 91))) (2 ^ b))
    by (rewrite !Z.lxor_assoc; f_equal; apply Z.lxor_comm).
  unfold rotl32.
  rewrite RotateLeft32_lxor
    by (try apply lxor_u32; try apply pow2_u32; try apply wrap32_range; assumption).
  rewrite RotateLeft32_pow2 by exact Hb.
  rewrite Zplus_mod_idemp_r. do 3 f_equal. lia.
Qed.

Lemma subKey32_other_word (k : list Z) (r i j v : Z) :
  0 <= j -> (i + r) mod 8 <> j -> subKey32 (aset k j v) r i = subKey32 k r i.
Proof.
  intros Hj Hne. unfold subKey32. cbv zeta. rewrite land_7.
  rewrite aget_aset_other; [reflexivity | exact Hj | | congruence].
  apply Z.mod_pos_bound. lia.
Qed.

(** For an 8-word key, flipping bit [b] of the key word that round [r]
    reads for word [i] flips exactly one bit of the subkey, bit
    [(b + r + i) mod 32], and leaves the subkey of every position that reads
    another key word unchanged. *)
Theorem subKey32_key_bit (k : list Z) (r i b : Z) :
  List.length k = 8%nat -> Forall is_u32 k -> 0 <= b < 32 ->
  subKey32 (flip_word_bit k ((i + r) mod 8) b) r i
  = Z.lxor (subKey32 k r i) (2 ^ ((b + r + i) mod 32)) /\
  (forall r' i', (i' + r') mod 8 <> (i + r) mod 8 ->
     subKey32 (flip_word_bit k ((i + r) mod 8) b) r' i' = subKey32 k r' i').
Proof.
  intros Hlen Hk Hb. split.
  - apply subKey32_flip; assumption.
  - intros r' i' Hne. unfold flip_word_bit. apply subKey32_other_word; [| exact Hne].
    apply Z.mod_pos_bound. lia.
Qed.

Lemma subKey32_key_bit_witness :
  let k := [0; 1; 2; 3; 4; 5; 6; 7] in
  List.length k = 8%nat /\ Forall is_u32 k /\ 0 <= 30 < 32 /\
  (subKey32 (flip_word_bit k ((3 + 9) mod 8) 30) 9 3
   = Z.lxor (subKey32 k 9 3) (2 ^ ((30 + 9 + 3) mod 32)) /\
   (forall r' i', (i' + r') mod 8 <> (3 + 9) mod 8 ->
      subKey32 (flip_word_bit k ((3 + 9) mod 8) 30) r' i' = subKey32 k r' i')).
Proof.
  cbv zeta.
  assert (Hk : Forall is_u32 [0; 1; 2; 3; 4; 5; 6; 7])
    by (repeat (apply Forall_cons; [unfold is_u32; lia |]); apply Forall_nil).
  assert (Hb : 0 <= 30 < 32) by lia.
  split; [reflexivity | split; [exact Hk | split; [exact Hb |]]].
  apply (subKey32_key_bit [0; 1; 2; 3; 4; 5; 6; 7] 9 3 30 eq_refl Hk Hb).
Defined.

Lemma enc_words_unrolled (k : list Z) (r : Z) (c : list Z) :
  enc_words k r c =
  let c := aset c 0 (round32 (aget c 0) (subKey32 k r 0) r) in
  let c := aset c 1 (round32 (aget c 1) (subKey32 k r 1) r) in
  let c := aset c 2 (round32 (aget c 2) (subKey32 k r 2) r) in
  aset c 3 (round32 (aget c 3) (subKey32 k r 3) r).
Proof. reflexivity. Qed.

Lemma dec_words_unrolled (k : list Z) (r : Z) (p : list Z) :
  dec_words k r p =
  let p := aset p 0 (invRound32 (aget p 0) (subKey32 k r 0) r) in
  let p := aset p 1 (invRound32 (aget p 1) (subKey32 k r 1) r) in
  let p := aset p 2 (invRound32 (aget p 2) (subKey32 k r 2) r) in
  aset p 3 (invRound32 (aget p 3) (subKey32 k r 3) r).
Proof. reflexivity. Qed.

Lemma index_0123 (i : Z) : 0 <= i < 4 -> i = 0 \/ i = 1 \/ i = 2 \/ i = 3.
Proof. lia. Qed.

Lemma key_index_distinct (r i i' : Z) :
  0 <= i < 4 -> 0 <= i' < 4 -> i' <> i -> (i' + r) mod 8 <> (i + r) mod 8.
Proof.
  intros Hi Hi' Hne Heq.
  pose proof (Z.div_mod (i' + r) 8 ltac:(lia)) as H1.
  pose proof (Z.div_mod (i + r) 8 ltac:(lia)) as H2.
  rewrite Heq in H1. lia.
Qed.

Lemma key_index_unused (r i j : Z) :
  0 <= i < 4 -> 4 <= (j - r) mod 8 -> (i + r) mod 8 <> j.
Proof.
  intros Hi Hj Heq. rewrite <- Heq, Zminus_mod_idemp_l in Hj.
  replace (i + r - r) with i in Hj by lia.
  rewrite Z.mod_small in Hj by lia. lia.
Qed.

(** Word [i] of the state after the inner loop of round [r]. *)
Lemma enc_words_aget (k : list Z) (r : Z) (c : list Z) (i : Z) :
  state_ok c -> 0 <= i < 4 ->
  aget (enc_words k r c) i = round32 (aget c i) (subKey32 k r i) r.
Proof.
  intros Hc Hi. destruct (state_ok_inv c Hc) as (a0 & a1 & a2 & a3 & -> & _).
  rewrite enc_words_4.
  destruct (index_0123 i Hi) as [-> | [-> | [-> | ->]]]; reflexivity.
Qed.

(** Round [r] reads the four key words [r], [r+1], [r+2], [r+3] modulo 8
    and no other: overwriting any of the other four words of the key
    changes neither the inner loop of [Encrypt] nor that of [Decrypt] in
    that round. *)
Theorem round_ignores_key_words (k : list Z) (r : Z) (c : list Z) (j v : Z) :
  0 <= j < 8 -> 4 <= (j - r) mod 8 ->
  enc_words (aset k j v) r c = enc_words k r c /\
  dec_words (aset k j v) r c = dec_words k r c.
Proof.
  intros Hj Hout.
  assert (Hsub : forall i, 0 <= i < 4 -> subKey32 (aset k j v) r i = subKey32 k r i).
  { intros i Hi. apply subKey32_other_word; [lia |].
    apply key_index_unused; assumption. }
  split.
  - rewrite !enc_words_unrolled. cbv zeta.
    rewrite (Hsub 0), (Hsub 1), (Hsub 2), (Hsub 3) by lia. reflexivity.
  - rewrite !dec_words_unrolled. cbv zeta.
    rewrite (Hsub 0), (Hsub 1), (Hsub 2), (Hsub 3) by lia. reflexivity.
Qed.

Lemma round_ignores_key_words_witness :
  0 <= 1 < 8 /\ 4 <= (1 - 5) mod 8 /\
  (enc_words (aset [10; 11; 12; 13; 14; 15; 16; 17] 1 99) 5 [1; 2; 3; 4]
   = enc_words [10; 11; 12; 13; 14; 15; 16; 17] 5 [1; 2; 3; 4] /\
   dec_words (aset [10; 11; 12; 13; 14; 15; 16; 17] 1 99) 5 [1; 2; 3; 4]
   = dec_words [10; 11; 12; 13; 14; 15; 16; 17] 5 [1; 2; 3; 4]).
Proof.
  assert (Hj : 0 <= 1 < 8) by lia.
  assert (Hout : 4 <= (1 - 5) mod 8) by (vm_compute; discriminate).
  split; [exact Hj | split; [exact Hout |]].
  apply (round_ignores_key_words [10; 11; 12; 13; 14; 15; 16; 17] 5 [1; 2; 3; 4] 1 99
           Hj Hout).
Defined.

(** In a round [r] of [0,16), flipping one bit of the key word read for
    word [i] changes word [i] of the state after the inner loop and no
    other word, and the state after [mixState32] is different as well:
    the first round that reads a flipped key bit always shows it. *)
Theorem enc_round_key_bit (k : list Z) (r i b : Z) (c : list Z) :
  List.length k = 8%nat -> Forall is_u32 k -> state_ok c ->
  0 <= r < 16 -> 0 <= i < 4 -> 0 <= b < 32 ->
  let k' := flip_word_bit k ((i + r) mod 8) b in
  aget (enc_words k' r c) i <> aget (enc_words k r c) i /\
  (forall i', 0 <= i' < 4 -> i' <> i ->
     aget (enc_words k' r c) i' = aget (enc_words k r c) i') /\
  mixState32 (enc_words k' r c) <> mixState32 (enc_words k r c).
Proof.
  intros Hlen Hk Hc Hr Hi Hb k'.
  assert (Hk' : Forall is_u32 k') by (apply flip_word_bit_u32; assumption).
  assert (Hword : aget (enc_words k' r c) i <> aget (enc_words k r c) i).
  { rewrite !enc_words_aget by assumption. unfold k'.
    rewrite subKey32_flip by assumption.
    apply round32_key_bit_general.
    - apply aget_u32, Hc.
    - apply subKey32_u32, Hk.
    - rewrite Z.mod_small by lia. lia.
    - apply Z.mod_pos_bound. lia. }
  split; [exact Hword | split].
  - intros i' Hi' Hne. rewrite !enc_words_aget by assumption. unfold k', flip_word_bit.
    rewrite subKey32_other_word; [reflexivity | |].
    + apply Z.mod_pos_bound. lia.
    + apply key_index_distinct; assumption.
  - intros Hmix. apply Hword.
    apply (f_equal invMixState32) in Hmix.
    rewrite !invMixState32_undoes in Hmix by (apply enc_words_ok; assumption).
    rewrite Hmix. reflexivity.
Qed.

Lemma enc_round_key_bit_witness :
  let k := [0x01010101; 0x02020202; 0x03030303; 0x04040404;
            0x05050505; 0x06060606; 0x07070707; 0x08080808] in
  let c := [0xDEADBEEF; 0x00000000; 0xFFFFFFFF; 0x13579BDF] in
  List.length k = 8%nat /\ Forall is_u32 k /\ state_ok c /\
  0 <= 12 < 16 /\ 0 <= 2 < 4 /\ 0 <= 0 < 32 /\
  (let k' := flip_word_bit k ((2 + 12) mod 8) 0 in
   aget (enc_words k' 12 c) 2 <> aget (enc_words k 12 c) 2 /\
   (forall i', 0 <= i' < 4 -> i' <> 2 ->
      aget (enc_words k' 12 c) i' = aget (enc_words k 12 c) i') /\
   mixState32 (enc_words k' 12 c) <> mixState32 (enc_words k 12 c)).
Proof.
  cbv zeta.
  assert (Hk : Forall is_u32 [0x01010101; 0x02020202; 0x03030303; 0x04040404;
                              0x05050505; 0x06060606; 0x07070707; 0x08080808])
    by (repeat (apply Forall_cons; [unfold is_u32; lia |]); apply Forall_nil).
  assert (Hc : state_ok [0xDEADBEEF; 0x00000000; 0xFFFFFFFF; 0x13579BDF])
    by (apply state_ok_4; unfold is_u32; lia).
  assert (Hr : 0 <= 12 < 16) by lia.
  assert (Hi : 0 <= 2 < 4) by lia.
  assert (Hb : 0 <= 0 < 32) by lia.
  split; [reflexivity | split; [exact Hk | split; [exact Hc | split; [exact Hr
    | split; [exact Hi | split; [exact Hb |]]]]]].
  apply (enc_round_key_bit
           [0x01010101; 0x02020202; 0x03030303; 0x04040404;
            0x05050505; 0x06060606; 0x07070707; 0x08080808]
           12 2 0 [0xDEADBEEF; 0x00000000; 0xFFFFFFFF; 0x13579BDF]
           eq_refl Hk Hc Hr Hi Hb).
Defined.

(** ** The mixing layer: a linear bijection of the states *)

Lemma lxor_interchange (a b c d : Z) :
  Z.lxor (Z.lxor a b) (Z.lxor c d) = Z.lxor (Z.lxor a c) (Z.lxor b d).
Proof.
  rewrite !Z.lxor_assoc. f_equal.
  rewrite <- !Z.lxor_assoc. f_equal. apply Z.lxor_comm.
Qed.

Lemma rotl32_lxor (a b n : Z) :
  is_u32 a -> is_u32 b -> rotl32 (Z.lxor a b) n = Z.lxor (rotl32 a n) (rotl32 b n).
Proof. apply RotateLeft32_lxor. Qed.

(** A mixing step on XOR-ed words is the XOR of the mixing steps. *)
Lemma mix_step_lxor (a a' b b' n : Z) :
  is_u32 b -> is_u32 b' ->
  Z.lxor (Z.lxor a a') (rotl32 (Z.lxor b b') n)
  = Z.lxor (Z.lxor a (rotl32 b n)) (Z.lxor a' (rotl32 b' n)).
Proof.
  intros Hb Hb'. rewrite rotl32_lxor by assumption. apply lxor_interchange.
Qed.

(** [mixState32] undoes [invMixState32] (the order opposite to the one
    decryption relies on), and both keep a state of four 32-bit words a
    state of four 32-bit words. *)
Theorem mixState32_bijection (s : list Z) :
  state_ok s ->
  mixState32 (invMixState32 s) = s /\
  state_ok (mixState32 s) /\ state_ok (invMixState32 s).
Proof.
  intros Hs. split; [| split].
  - destruct (state_ok_inv s Hs) as (a & b & c & d & -> & _).
    rewrite invMixState32_4. cbv zeta. rewrite mixState32_4. cbv zeta.
    rewrite !lxor_cancel_r. reflexivity.
  - apply mixState32_ok, Hs.
  - apply invMixState32_ok, Hs.
Qed.

Lemma mixState32_bijection_witness :
  state_ok [0xFFFFFFFF; 0; 0x80000000; 1] /\
  (mixState32 (invMixState32 [0xFFFFFFFF; 0; 0x80000000; 1]) = [0xFFFFFFFF; 0; 0x80000000; 1] /\
   state_ok (mixState32 [0xFFFFFFFF; 0; 0x80000000; 1]) /\
   state_ok (invMixState32 [0xFFFFFFFF; 0; 0x80000000; 1])).
Proof.
  assert (Hs : state_ok [0xFFFFFFFF; 0; 0x80000000; 1])
    by (apply state_ok_4; unfold is_u32; lia).
  split; [exact Hs | apply (mixState32_bijection [0xFFFFFFFF; 0; 0x80000000; 1] Hs)].
Defined.

(** [mixState32] and [invMixState32] are linear over XOR: mixing the
    word-wise XOR of two states gives the word-wise XOR of the two mixed
    states, so the layer adds no nonlinearity of its own. *)
Theorem mixState32_xor_linear (s t : list Z) :
  state_ok s -> state_ok t ->
  mixState32 (xor_state s t) = xor_state (mixState32 s) (mixState32 t) /\
  invMixState32 (xor_state s t) = xor_state (invMixState32 s) (invMixState32 t).
Proof.
  intros Hs Ht.
  destruct (state_ok_inv s Hs) as (a & b & c & d & -> & Ha & Hb & Hc & Hd).
  destruct (state_ok_inv t Ht) as (a' & b' & c' & d' & -> & Ha' & Hb' & Hc' & Hd').
  unfold xor_state. cbn [combine map fst snd].
  rewrite !mixState32_4, !invMixState32_4. cbv zeta. cbn [combine map fst snd].
  split.
  - rewrite (mix_step_lxor a a' b b' 5) by assumption.
    rewrite (mix_step_lxor b b' c c' 11), (mix_step_lxor c c' d d' 17) by assumption.
    rewrite (mix_step_lxor d d') by (apply lxor_u32; try apply rotl32_u32; assumption).
    reflexivity.
  - rewrite (mix_step_lxor d d' a a' 23) by assumption.
    rewrite (mix_step_lxor c c')
      by (apply lxor_u32; try apply rotl32_u32; assumption).
    rewrite (mix_step_lxor b b')
      by (repeat (apply lxor_u32 || apply rotl32_u32 || assumption)).
    rewrite (mix_step_lxor a a')
      by (repeat (apply lxor_u32 || apply rotl32_u32 || assumption)).
    reflexivity.
Qed.

Lemma mixState32_xor_linear_witness :
  let s := [1; 2; 3; 4] in
  let t := [0xFFFFFFFF; 0x0F0F0F0F; 0; 0x80000000] in
  state_ok s /\ state_ok t /\
  (mixState32 (xor_state s t) = xor_state (mixState32 s) (mixState32 t) /\
   invMixState32 (xor_state s t) = xor_state (invMixState32 s) (invMixState32 t)).
Proof.
  cbv zeta.
  assert (Hs : state_ok [1; 2; 3; 4]) by (apply state_ok_4; unfold is_u32; lia).
  assert (Ht : state_ok [0xFFFFFFFF; 0x0F0F0F0F; 0; 0x80000000])
    by (apply state_ok_4; unfold is_u32; lia).
  split; [exact Hs | split; [exact Ht |]].
  apply (mixState32_xor_linear [1; 2; 3; 4] [0xFFFFFFFF; 0x0F0F0F0F; 0; 0x80000000] Hs Ht).
Defined.

(** ** Byte order of the codec *)

Lemma lor_shiftl_add (a b n : Z) :
  0 <= n -> 0 <= a < 2 ^ n -> Z.lor a (Z.shiftl b n) = a + b * 2 ^ n.
Proof.
  intros Hn Ha.
  assert (Hdisj : Z.land a (Z.shiftl b n) = 0).
  { apply Z.bits_inj'. intros i Hi.
    rewrite Z.land_spec, Z.shiftl_spec, Z.bits_0 by exact Hi.
    destruct (Z.ltb_spec i n) as [Hlt | Hge].
    - rewrite (Z.testbit_neg_r b (i - n)) by lia. apply andb_false_r.
    - rewrite <- (Z.mod_small a (2 ^ n)) by exact Ha.
      rewrite Z.mod_pow2_bits_high by lia. reflexivity. }
  rewrite <- Z.lxor_lor, <- Z.add_nocarry_lxor by exact Hdisj.
  rewrite Z.shiftl_mul_pow2 by exact Hn. reflexivity.
Qed.

(** The codec is little-endian: the word read from four bytes is
    [b0 + 2^8 b1 + 2^16 b2 + 2^24 b3], and the four bytes written for a word
    [v] are [v], [v / 2^8], [v / 2^16], [v / 2^24], each modulo 256. *)
Theorem codec_little_endian (b0 b1 b2 b3 : byte) (v : Z) :
  binary.Uint32 [b0; b1; b2; b3]
  = u8 b0 + 2 ^ 8 * u8 b1 + 2 ^ 16 * u8 b2 + 2 ^ 24 * u8 b3 /\
  map u8 (binary.PutUint32 v)
  = [v mod 256; (v / 2 ^ 8) mod 256; (v / 2 ^ 16) mod 256; (v / 2 ^ 24) mod 256].
Proof.
  split.
  - unfold binary.Uint32. cbn [nth].
    pose proof (u8_range b0) as H0. pose proof (u8_range b1) as H1.
    pose proof (u8_range b2) as H2. pose proof (u8_range b3) as H3.
    rewrite (lor_shiftl_add (u8 b0) (u8 b1) 8) by lia.
    rewrite (lor_shiftl_add _ (u8 b2) 16) by lia.
    rewrite (lor_shiftl_add _ (u8 b3) 24) by lia.
    lia.
  - unfold binary.PutUint32. cbn [map].
    rewrite !u8_byte_of, !Z.shiftr_div_pow2 by lia. reflexivity.
Qed.

(** Reading back the sixteen bytes written for a state of four 32-bit
    words gives the state again. *)
Theorem codec_words_roundtrip (s : list Z) :
  state_ok s ->
  load_words 4 (store_words s (repeat x00 (Z.to_nat BlockSize))) = s /\
  List.length (store_words s (repeat x00 (Z.to_nat BlockSize))) = 16%nat.
Proof.
  intros Hs. split.
  - apply load_words_store_words, Hs.
  - apply store_words_length, Hs.
Qed.

Lemma codec_words_roundtrip_witness :
  let s := [0x03020100; 0xFFFFFFFF; 0; 0x80000001] in
  state_ok s /\
  (load_words 4 (store_words s (repeat x00 (Z.to_nat BlockSize))) = s /\
   List.length (store_words s (repeat x00 (Z.to_nat BlockSize))) = 16%nat).
Proof.
  cbv zeta.
  assert (Hs : state_ok [0x03020100; 0xFFFFFFFF; 0; 0x80000001])
    by (apply state_ok_4; unfold is_u32; lia).
  split; [exact Hs | apply (codec_words_roundtrip [0x03020100; 0xFFFFFFFF; 0; 0x80000001] Hs)].
Defined.

(** ** The cipher as a permutation of the blocks *)

Lemma Decrypt_fst_Encrypt (P K : list byte) :
  List.length P = 16%nat -> List.length K = 32%nat ->
  Decrypt (fst (Encrypt P K)) K = (P, None).
Proof.
  intros HP HK. rewrite (Encrypt_sized P K HP HK). cbn [fst].
  pose proof (load_words_u32 8 K) as Hk.
  pose proof (load_words_ok P) as Hs.
  rewrite Decrypt_sized
    by (try apply store_words_length; try apply enc_rounds_ok; try apply Hs; assumption).
  rewrite load_words_store_words by (apply enc_rounds_ok; assumption).
  rewrite dec_rounds_enc_rounds by assumption.
  rewrite store_words_load_words by exact HP. reflexivity.
Qed.

Lemma Encrypt_fst_Decrypt (C K : list byte) :
  List.length C = 16%nat -> List.length K = 32%nat ->
  Encrypt (fst (Decrypt C K)) K = (C, None).
Proof.
  intros HC HK. rewrite (Decrypt_sized C K HC HK). cbn [fst].
  pose proof (load_words_u32 8 K) as Hk.
  pose proof (load_words_ok C) as Hs.
  rewrite Encrypt_sized
    by (try apply store_words_length; try apply dec_rounds_ok; try apply Hs; assumption).
  rewrite load_words_store_words by (apply dec_rounds_ok; assumption).
  rewrite enc_rounds_dec_rounds by assumption.
  rewrite store_words_load_words by exact HC. reflexivity.
Qed.

(** Under one 32-byte key two different 16-byte blocks never encrypt to the
    same ciphertext, and never decrypt to the same plaintext. *)
Theorem Encrypt_Decrypt_injective (B B' K : list byte) :
  List.length B = 16%nat -> List.length B' = 16%nat -> List.length K = 32%nat ->
  (fst (Encrypt B K) = fst (Encrypt B' K) -> B = B') /\
  (fst (Decrypt B K) = fst (Decrypt B' K) -> B = B').
Proof.
  intros HB HB' HK. split; intros Heq.
  - pose proof (Decrypt_fst_Encrypt B K HB HK) as H1.
    pose proof (Decrypt_fst_Encrypt B' K HB' HK) as H2.
    rewrite Heq, H2 in H1. injection H1 as H1. symmetry. exact H1.
  - pose proof (Encrypt_fst_Decrypt B K HB HK) as H1.
    pose proof (Encrypt_fst_Decrypt B' K HB' HK) as H2.
    rewrite Heq, H2 in H1. injection H1 as H1. symmetry. exact H1.
Qed.

Lemma Encrypt_Decrypt_injective_witness :
  let B := repeat x00 16 in
  let B' := repeat x00 15 ++ [x01] in
  let K := repeat x7e 32 in
  List.length B = 16%nat /\ List.length B' = 16%nat /\ List.length K = 32%nat /\
  ((fst (Encrypt B K) = fst (Encrypt B' K) -> B = B') /\
   (fst (Decrypt B K) = fst (Decrypt B' K) -> B = B')).
Proof.
  cbv zeta. split; [reflexivity | split; [reflexivity | split; [reflexivity |]]].
  apply (Encrypt_Decrypt_injective (repeat x00 16) (repeat x00 15 ++ [x01]) (repeat x7e 32));
    reflexivity.
Defined.

(** ** The cipher object end to end *)

Lemma firstn_16_app (out rest : list byte) :
  List.length out = 16%nat -> firstn 16 (out ++ rest) = out.
Proof.
  intros Hlen. rewrite <- Hlen, firstn_app, Nat.sub_diag, firstn_all, firstn_O.
  apply app_nil_r.
Qed.

Lemma len_app_block (out rest : list byte) :
  List.length out = 16%nat -> 16 <= len (out ++ rest).
Proof. intros Hlen. unfold len. rewrite length_app, Hlen. lia. Qed.

(** With an object made by [NewCipher] and buffers of at least 16 bytes, the
    [Decrypt] method applied to what the [Encrypt] method left in its
    destination gives back the first 16 bytes of the original source,
    followed by the untouched rest of the second destination. *)
Theorem cipher_object_roundtrip (k : list byte) (c : gingaCipher)
    (src dst dst' mid : list byte) :
  NewCipher k = (Some c, None) ->
  16 <= len src -> 16 <= len dst -> 16 <= len dst' ->
  gingaCipher.Encrypt c dst src = Returns mid ->
  gingaCipher.Decrypt c dst' mid = Returns (firstn 16 src ++ skipn 16 dst').
Proof.
  intros Hnew Hs Hd Hd' Henc.
  destruct (NewCipher_inv k c Hnew) as [Hlen Hkey]. rewrite <- Hkey in Hlen.
  destruct (method_Encrypt_full c dst src Hlen Hs Hd) as (out & Hout & Hout_len & Hm).
  assert (Hmid : mid = out ++ skipn 16 dst) by congruence. subst mid.
  destruct (method_Decrypt_full c dst' (out ++ skipn 16 dst) Hlen
              (len_app_block out _ Hout_len) Hd') as (back & Hback & _ & ->).
  rewrite firstn_16_app in Hback by exact Hout_len.
  assert (Hout' : out = fst (Encrypt (firstn 16 src) (key c))) by (rewrite Hout; reflexivity).
  rewrite Hout', Decrypt_fst_Encrypt in Hback
    by (try apply firstn_16_length; assumption).
  injection Hback as <-. reflexivity.
Qed.

Lemma cipher_object_roundtrip_witness :
  let k := repeat x42 32 in
  let c := {| key := k |} in
  let src := repeat x11 20 in
  let dst := repeat x22 18 in
  let dst' := repeat x33 17 in
  let mid := fst (Encrypt (firstn 16 src) k) ++ skipn 16 dst in
  NewCipher k = (Some c, None) /\
  16 <= len src /\ 16 <= len dst /\ 16 <= len dst' /\
  gingaCipher.Encrypt c dst src = Returns mid /\
  gingaCipher.Decrypt c dst' mid = Returns (firstn 16 src ++ skipn 16 dst').
Proof.
  cbv zeta.
  assert (Hnew : NewCipher (repeat x42 32) = (Some {| key := repeat x42 32 |}, None))
    by reflexivity.
  assert (Hs : 16 <= len (repeat x11 20)) by (vm_compute; discriminate).
  assert (Hd : 16 <= len (repeat x22 18)) by (vm_compute; discriminate).
  assert (Hd' : 16 <= len (repeat x33 17)) by (vm_compute; discriminate).
  assert (Henc : gingaCipher.Encrypt {| key := repeat x42 32 |} (repeat x22 18) (repeat x11 20)
                 = Returns (fst (Encrypt (firstn 16 (repeat x11 20)) (repeat x42 32))
                            ++ skipn 16 (repeat x22 18)))
    by (vm_compute; reflexivity).
  split; [exact Hnew | split; [exact Hs | split; [exact Hd | split; [exact Hd'
    | split; [exact Henc |]]]]].
  apply (cipher_object_roundtrip (repeat x42 32) {| key := repeat x42 32 |}
           (repeat x11 20) (repeat x22 18) (repeat x33 17) _ Hnew Hs Hd Hd' Henc).
Defined.

(** A cipher object whose stored key is not 32 bytes long (one built inside
    the package without [NewCipher]) makes both methods panic on full-size
    buffers with the wrapped key-size error; with a 32-byte key and
    full-size buffers neither method panics. *)
Theorem cipher_object_key_check (c : gingaCipher) (dst src : list byte) :
  16 <= len src -> 16 <= len dst ->
  (List.length (key c) <> 32%nat ->
   gingaCipher.Encrypt c dst src
   = Panics "ginga: encryption failed: ginga: key must be 32 bytes (256 bits)" /\
   gingaCipher.Decrypt c dst src
   = Panics "ginga: decryption failed: ginga: key must be 32 bytes (256 bits)") /\
  (List.length (key c) = 32%nat ->
   (exists d, gingaCipher.Encrypt c dst src = Returns d /\ len d = len dst) /\
   (exists d, gingaCipher.Decrypt c dst src = Returns d /\ len d = len dst)).
Proof.
  intros Hs Hd. split.
  - intros Hk. unfold gingaCipher.Encrypt, gingaCipher.Decrypt.
    rewrite full_buffers by assumption.
    change (slice src 0 BlockSize) with (firstn 16 src).
    rewrite Encrypt_bad_key, Decrypt_bad_key by (try apply firstn_16_length; assumption).
    split; reflexivity.
  - intros Hk.
    assert (Hlen : forall out, List.length out = 16%nat ->
                     len (out ++ skipn 16 dst) = len dst).
    { intros out Ho. unfold len in *. rewrite length_app, length_skipn, Ho. lia. }
    split.
    + destruct (method_Encrypt_full c dst src Hk Hs Hd) as (out & _ & Ho & ->).
      eexists. split; [reflexivity | apply Hlen, Ho].
    + destruct (method_Decrypt_full c dst src Hk Hs Hd) as (out & _ & Ho & ->).
      eexists. split; [reflexivity | apply Hlen, Ho].
Qed.

Lemma cipher_object_key_check_witness :
  let c := {| key := repeat x42 31 |} in
  let dst := repeat x00 16 in
  let src := repeat x00 16 in
  16 <= len src /\ 16 <= len dst /\
  ((List.length (key c) <> 32%nat ->
    gingaCipher.Encrypt c dst src
    = Panics "ginga: encryption failed: ginga: key must be 32 bytes (256 bits)" /\
    gingaCipher.Decrypt c dst src
    = Panics "ginga: decryption failed: ginga: key must be 32 bytes (256 bits)") /\
   (List.length (key c) = 32%nat ->
    (exists d, gingaCipher.Encrypt c dst src = Returns d /\ len d = len dst) /\
    (exists d, gingaCipher.Decrypt c dst src = Returns d /\ len d = len dst))).
Proof.
  cbv zeta.
  assert (Hs : 16 <= len (repeat x00 16)) by (vm_compute; discriminate).
  split; [exact Hs | split; [exact Hs |]].
  apply (cipher_object_key_check {| key := repeat x42 31 |} (repeat x00 16) (repeat x00 16)
           Hs Hs).
Defined.

(** ** Every key bit reaches a subkey *)

(** Whatever the round [r], each bit of each of the eight key words shows
    in a subkey of round [r] or of round [r + 4]: flipping it flips exactly
    one bit of the subkey of some word index below 4 there. No part of the
    key is left unused by the schedule. *)
Theorem every_key_bit_reaches_a_subkey (k : list Z) (j b r : Z) :
  List.length k = 8%nat -> Forall is_u32 k -> 0 <= j < 8 -> 0 <= b < 32 ->
  exists r' i,
    (r' = r \/ r' = r + 4) /\ 0 <= i < 4 /\
    subKey32 (flip_word_bit k j b) r' i
    = Z.lxor (subKey32 k r' i) (2 ^ ((b + r' + i) mod 32)).
Proof.
  intros Hlen Hk Hj Hb.
  assert (Hm : 0 <= (j - r) mod 8 < 8) by (apply Z.mod_pos_bound; lia).
  assert (Hback : ((j - r) mod 8 + r) mod 8 = j).
  { rewrite Zplus_mod_idemp_l. replace (j - r + r) with j by lia.
    apply Z.mod_small, Hj. }
  destruct (Z.ltb_spec ((j - r) mod 8) 4) as [Hlt | Hge].
  - exists r, ((j - r) mod 8). split; [left; reflexivity | split; [lia |]].
    rewrite <- Hback at 1. apply subKey32_flip; assumption.
  - exists (r + 4), ((j - r) mod 8 - 4). split; [right; reflexivity | split; [lia |]].
    replace j with (((j - r) mod 8 - 4 + (r + 4)) mod 8) at 1
      by (replace ((j - r) mod 8 - 4 + (r + 4)) with ((j - r) mod 8 + r) by lia;
          exact Hback).
    apply subKey32_flip; assumption.
Qed.

Lemma every_key_bit_reaches_a_subkey_witness :
  let k := [7; 6; 5; 4; 3; 2; 1; 0] in
  List.length k = 8%nat /\ Forall is_u32 k /\ 0 <= 6 < 8 /\ 0 <= 17 < 32 /\
  exists r' i,
    (r' = 9 \/ r' = 9 + 4) /\ 0 <= i < 4 /\
    subKey32 (flip_word_bit k 6 17) r' i
    = Z.lxor (subKey32 k r' i) (2 ^ ((17 + r' + i) mod 32)).
Proof.
  cbv zeta.
  assert (Hk : Forall is_u32 [7; 6; 5; 4; 3; 2; 1; 0])
    by (repeat (apply Forall_cons; [unfold is_u32; lia |]); apply Forall_nil).
  assert (Hj : 0 <= 6 < 8) by lia.
  assert (Hb : 0 <= 17 < 32) by lia.
  split; [reflexivity | split; [exact Hk | split; [exact Hj | split; [exact Hb |]]]].
  apply (every_key_bit_reaches_a_subkey [7; 6; 5; 4; 3; 2; 1; 0] 6 17 9 eq_refl Hk Hj Hb).
Defined.
